(** * PulseReader: the RSVP overlay (text extraction, timing, playback)

    A shallow embedding of [RSVPOverlay] (the speed-reading overlay
    component) and of the parts of the browser it reads: the DOM tree it
    walks, the strings it cuts into words, and the React state its
    handlers update.

    Conventions.
    - A JavaScript string is the list of its UTF-16 code units ([N]).
    - A DOM node carries an identity ([nid]); [n === range.endContainer]
      is equality of identities.
    - [TreeWalker.nextNode] with a pure filter is modelled by the list of
      the nodes it returns, in document order; the [while] loops consume
      that list and stop where the source has [break].
    - React state is a record; a handler is a function on it.  Several
      [setX] calls of one handler are batched, so a handler maps the state
      before to the state after. *)

From Stdlib Require Import String Ascii ZArith List Bool Lia.
From Stdlib Require QArith.
From Stdlib Require Import Sorted.
Import ListNotations.
Open Scope Z_scope.

(* ================================================================= *)
(** ** JavaScript strings *)

Module Js.

Definition jsstring := list N.

(** A literal with ASCII characters only. *)
Definition lit (s : string) : jsstring :=
  map N_of_ascii (list_ascii_of_string s).

(** [\s] of a regular expression, which is also what [trim] strips:
    WhiteSpace and LineTerminator of ECMAScript. *)
Definition isWhiteSpace (c : N) : bool :=
  (((9 <=? c) && (c <=? 13)) || (c =? 32) || (c =? 160) || (c =? 0x1680)
   || ((0x2000 <=? c) && (c <=? 0x200A))
   || (c =? 0x2028) || (c =? 0x2029) || (c =? 0x202F) || (c =? 0x205F)
   || (c =? 0x3000) || (c =? 0xFEFF))%N.

(** [\w] without the unicode flag: [A-Za-z0-9_]. *)
Definition isWordChar (c : N) : bool :=
  (((65 <=? c) && (c <=? 90)) || ((97 <=? c) && (c <=? 122))
   || ((48 <=? c) && (c <=? 57)) || (c =? 95))%N.

(** The punctuation the cleaning expression keeps: full stop, comma,
    exclamation and question mark, semicolon, colon, apostrophe, double
    quote, the two parentheses, em dash, en dash, hyphen, right and
    left single quotation mark. *)
Definition keptPunctuation : list N :=
  [46; 44; 33; 63; 59; 58; 39; 34; 40; 41; 0x2014; 0x2013; 45; 0x2019; 0x2018]%N.

Definition memN (c : N) (l : list N) : bool := existsb (N.eqb c) l.

(** The character class of the cleaning expression: word characters,
    white space and the kept punctuation; the expression removes the
    complement of the class. *)
Definition isKept (c : N) : bool :=
  isWordChar c || isWhiteSpace c || memN c keptPunctuation.

(** [w.replace(/[^...]/g, empty)] with the class above. *)
Definition clean (w : jsstring) : jsstring := filter isKept w.

Fixpoint trimStart (s : jsstring) : jsstring :=
  match s with
  | c :: s' => if isWhiteSpace c then trimStart s' else s
  | [] => []
  end.

Definition trimEnd (s : jsstring) : jsstring := rev (trimStart (rev s)).

(** [s.trim()] *)
Definition trim (s : jsstring) : jsstring := trimEnd (trimStart s).

(** [s.split(/\s+/)]: [cur] is the piece being read (reversed), [inWs]
    says that the previous unit belonged to a separator. *)
Fixpoint splitAux (cur : jsstring) (inWs : bool) (s : jsstring)
  : list jsstring :=
  match s with
  | [] => [rev cur]
  | c :: s' =>
      if isWhiteSpace c
      then if inWs then splitAux [] true s'
           else rev cur :: splitAux [] true s'
      else splitAux (c :: cur) false s'
  end.

Definition splitWs (s : jsstring) : list jsstring := splitAux [] false s.

Definition nonEmpty (s : jsstring) : bool :=
  match s with [] => false | _ => true end.

(** [s.substring(0, e)] and [s.substring(b)] for offsets that are
    unsigned, as DOM range offsets are; both clamp at the length. *)
Definition substringTo (e : nat) (s : jsstring) : jsstring := firstn e s.
Definition substringFrom (b : nat) (s : jsstring) : jsstring := skipn b s.

(** ASCII [toLowerCase], for tag names. *)
Definition lowerAscii (a : ascii) : ascii :=
  let n := nat_of_ascii a in
  if ((65 <=? n) && (n <=? 90))%nat then ascii_of_nat (n + 32) else a.

Fixpoint toLowerCase (s : string) : string :=
  match s with
  | EmptyString => EmptyString
  | String a s' => String (lowerAscii a) (toLowerCase s')
  end.

(** [list.includes(tag.toLowerCase())] *)
Definition includesLower (l : list string) (tag : string) : bool :=
  existsb (String.eqb (toLowerCase tag)) l.

(** [Math.round(a / b)] for integers [a >= 0], [b > 0]: the quotient is
    rounded to the nearest integer, a half going up.  (The double
    [a / b] is within 2^-40 of the rational for the values used here,
    and a rational [a / b] that is not a half-integer is at least
    [1 / (2 b)] away from one, so rounding the double and rounding the
    rational agree.) *)
Definition roundDiv (a b : Z) : Z := (2 * a + b) / (2 * b).

End Js.

(* ================================================================= *)
(** ** The DOM the extraction walks *)

Module Dom.
Import Js.

(** The part of [getBoundingClientRect()] that is read. *)
Record Rect := mkRect { top : Z; bottom : Z }.

#[warnings="-register-all"] Inductive Node :=
| Text (nid : nat) (textContent : jsstring)
| Element (nid : nat) (tagName : string) (rect : Rect)
          (childNodes : list Node)
| Comment (nid : nat).

Definition nodeId (n : Node) : nat :=
  match n with
  | Text i _ => i
  | Element i _ _ _ => i
  | Comment i => i
  end.

Definition nodeType (n : Node) : Z :=
  match n with
  | Element _ _ _ _ => 1
  | Text _ _ => 3
  | Comment _ => 8
  end.

Definition children (n : Node) : list Node :=
  match n with
  | Element _ _ _ cs => cs
  | _ => []
  end.

(** What the loops read of [node.parentElement]. *)
Record Parent := mkParent { pid : nat; ptag : string; prect : Rect }.

Definition asParent (n : Node) : Parent :=
  match n with
  | Element i t r _ => mkParent i t r
  | Text i _ => mkParent i EmptyString (mkRect 0 0)
  | Comment i => mkParent i EmptyString (mkRect 0 0)
  end.

(** [[img, svg, picture].includes(n.tagName?.toLowerCase())]; a node
    without [tagName] gives [undefined], which no list includes. *)
Definition isImageTag (tag : string) : bool :=
  includesLower ["img"; "svg"; "picture"]%string tag.

Definition isImageNode (n : Node) : bool :=
  match n with
  | Element _ t _ _ => isImageTag t
  | _ => false
  end.

(** A range built from the two CFIs, as far as the walk reads it.
    [intersectsNode] is the browser's [Range.intersectsNode], by node
    identity; [root] is the walker's root (line 89). *)
Record Range := mkRange {
  startContainer : nat;
  startOffset : nat;
  endContainer : nat;
  endOffset : nat;
  intersectsNode : nat -> bool;
  root : Node
}.

End Dom.

(* ================================================================= *)
(** ** Text extraction: [extractText] *)

Module Extract.
Import Js Dom.

(** An entry of [wordElementsRef.current]:
    [{ node, parent, word, originalWord }]. *)
Record WordRef := mkWordRef {
  node : nat;
  parent : nat;
  word : jsstring;
  originalWord : jsstring
}.

(** The four locals of [extractText] that the two walks update:
    [wordList], [wordElementsRef.current], [hitImage], [imageStopIdx]. *)
Record Scan := mkScan {
  wordList : list jsstring;
  wordElements : list WordRef;
  hitImage : bool;
  imageStopIdx : Z
}.

Definition emptyScan : Scan := mkScan [] [] false (-1).

(** [hitImage = true; imageStopIdx = wordList.length; break] *)
Definition stopAtImage (a : Scan) : Scan :=
  mkScan (wordList a) (wordElements a) true (Z.of_nat (length (wordList a))).

(** One round of the [forEach] (or [for ... of]) over the words of a
    text node: the cleaned word is pushed on both lists, unless it is
    empty. *)
Definition pushWord (n p : nat) (a : Scan) (w : jsstring) : Scan :=
  let cw := clean w in
  if nonEmpty cw
  then mkScan (wordList a ++ [cw])
              (wordElements a ++ [mkWordRef n p cw w])
              (hitImage a) (imageStopIdx a)
  else a.

(** [text = text.trim(); if (text) text.split(/\s+/).filter(w => w.length)
    .forEach(...)] *)
Definition pushText (n p : nat) (text : jsstring) (a : Scan) : Scan :=
  let t := trim text in
  if nonEmpty t
  then fold_left (pushWord n p) (filter nonEmpty (splitWs t)) a
  else a.

(** *** The walk over the CFI range (paginated mode) *)

(** [acceptNode] of the first walker: [script] and [style] are rejected,
    and so is what the range does not intersect. *)
Definition cfiAccepts (rg : Range) (n : Node) : bool :=
  match n with
  | Element i t _ _ =>
      if includesLower ["script"; "style"]%string t then false
      else intersectsNode rg i
  | _ => intersectsNode rg (nodeId n)
  end.

(** The nodes [walker.nextNode()] returns below [n], [n] included, each
    with the identity of its parent element.  A rejected node hides its
    subtree. *)
Fixpoint cfiVisit (rg : Range) (p : nat) (n : Node) : list (Node * nat) :=
  if cfiAccepts rg n
  then (n, p) :: match n with
                 | Element i _ _ cs => flat_map (cfiVisit rg i) cs
                 | _ => []
                 end
  else [].

(** The walker never returns its root. *)
Definition cfiNodes (rg : Range) : list (Node * nat) :=
  flat_map (cfiVisit rg (nodeId (root rg))) (children (root rg)).

(** Lines 103-111: the text of a node, cut at the end offset when the
    node is the end container, then at the start offset when it is the
    start container. *)
Definition partialText (rg : Range) (n : nat) (text : jsstring) : jsstring :=
  let text := if Nat.eqb n (endContainer rg)
              then substringTo (endOffset rg) text else text in
  let text := if Nat.eqb n (startContainer rg)
              then substringFrom (startOffset rg) text else text in
  text.

(** Line 97: the test that ends the first walk at an image. *)
Definition cfiHalts (rg : Range) (n : Node) : bool :=
  isImageNode n && intersectsNode rg (nodeId n).

(** The [while (n = walker.nextNode())] loop, lines 95-124. *)
Fixpoint cfiLoop (rg : Range) (ns : list (Node * nat)) (a : Scan) : Scan :=
  match ns with
  | [] => a
  | (n, p) :: rest =>
      if hitImage a then a
      else if cfiHalts rg n
      then stopAtImage a
      else match n with
           | Text i text => cfiLoop rg rest (pushText i p (partialText rg i text) a)
           | _ => cfiLoop rg rest a
           end
  end.

Definition cfiWalk (rg : Range) (a : Scan) : Scan :=
  cfiLoop rg (cfiNodes rg) a.

(** *** The walk over a whole document (the fallback) *)

(** An entry of [rendition.getContents()]: [body] is [None] when
    [doc && doc.body && win] fails; [innerHeight] is [win.innerHeight]. *)
Record Content := mkContent {
  body : option Node;
  innerHeight : Z
}.

(** [acceptNode] of the second walker looks at the parent's tag only. *)
Definition fallbackAccepts (p : Parent) : bool :=
  negb (includesLower ["script"; "style"; "noscript"]%string (ptag p)).

Fixpoint fallbackVisit (p : Parent) (n : Node) : list (Node * Parent) :=
  if fallbackAccepts p
  then (n, p) :: match n with
                 | Element _ _ _ cs => flat_map (fallbackVisit (asParent n)) cs
                 | _ => []
                 end
  else [].

Definition fallbackNodes (b : Node) : list (Node * Parent) :=
  flat_map (fallbackVisit (asParent b)) (children b).

(** Line 170: in paginated mode any image stops the walk, in scrolled
    mode one whose top edge lies in the viewport. *)
Definition imageStops (isPaginated : bool) (vh : Z) (r : Rect) : bool :=
  isPaginated || ((0 <=? top r) && (top r <=? vh)).

(** Lines 188-192: text whose parent lies outside the viewport is
    skipped in scrolled mode. *)
Definition textSkipped (isPaginated : bool) (vh : Z) (r : Rect) : bool :=
  negb isPaginated && ((bottom r <? 0) || (vh <? top r)).

(** Lines 162-170: the test that ends the second walk at an image. *)
Definition fallbackHalts (isPaginated : bool) (vh : Z) (n : Node) : bool :=
  match n with
  | Element _ t r _ => isImageTag t && imageStops isPaginated vh r
  | _ => false
  end.

(** The [while ((node = walker.nextNode()))] loop, lines 160-213. *)
Fixpoint fallbackLoop (isPaginated : bool) (vh : Z)
         (ns : list (Node * Parent)) (a : Scan) : Scan :=
  match ns with
  | [] => a
  | (n, p) :: rest =>
      match n with
      | Element _ t r _ =>
          if isImageTag t && imageStops isPaginated vh r
          then stopAtImage a
          else fallbackLoop isPaginated vh rest a
      | Text i text =>
          if textSkipped isPaginated vh (prect p)
          then fallbackLoop isPaginated vh rest a
          else fallbackLoop isPaginated vh rest (pushText i (pid p) text a)
      | Comment _ => fallbackLoop isPaginated vh rest a
      end
  end.

(** The body of [for (const content of contents)]. *)
Definition fallbackContent (isPaginated : bool) (a : Scan) (c : Content)
  : Scan :=
  match body c with
  | Some b => fallbackLoop isPaginated (innerHeight c) (fallbackNodes b) a
  | None => a
  end.

Definition fallbackWalk (isPaginated : bool) (cs : list Content) (a : Scan)
  : Scan :=
  fold_left (fallbackContent isPaginated) cs a.

(** *** The rendition *)

(** What [extractText] reads of [rendition]:
    [isPaginated] is [rendition.settings?.flow !== scrolled];
    [cfiRange] is the range of lines 82-89 when both CFIs exist, resolve
    without an exception and lie in one document, [None] otherwise (the
    [catch] of line 126 leaves [wordList] empty in that case);
    [contents] is [rendition.getContents()]. *)
Record Rendition := mkRendition {
  isPaginated : bool;
  cfiRange : option Range;
  contents : list Content
}.

(** Lines 70-216: the CFI walk, then the fallback if it found no word. *)
Definition scan (r : Rendition) : Scan :=
  let a :=
    if isPaginated r
    then match cfiRange r with
         | Some rg => cfiWalk rg emptyScan
         | None => emptyScan
         end
    else emptyScan in
  match wordList a with
  | [] => fallbackWalk (isPaginated r) (contents r) a
  | _ => a
  end.

End Extract.

(* ================================================================= *)
(** ** The overlay's state and its handlers *)

Module Playback.
Import Js Dom Extract.

(** The [useState] cells and the two data refs of the component. *)
Record State := mkState {
  words : list jsstring;
  currentIndex : Z;
  isPlaying : bool;
  wpm : Z;
  extracting : bool;
  error : option string;
  stoppedAtImage : bool;
  imageStopIndex : Z;
  wordElementsRef : list WordRef;
  lastWordBeforeImageRef : option WordRef
}.

Definition setCurrentIndex (v : Z) (s : State) : State :=
  mkState (words s) v (isPlaying s) (wpm s) (extracting s) (error s)
          (stoppedAtImage s) (imageStopIndex s) (wordElementsRef s)
          (lastWordBeforeImageRef s).

Definition setIsPlaying (v : bool) (s : State) : State :=
  mkState (words s) (currentIndex s) v (wpm s) (extracting s) (error s)
          (stoppedAtImage s) (imageStopIndex s) (wordElementsRef s)
          (lastWordBeforeImageRef s).

Definition setWpm (v : Z) (s : State) : State :=
  mkState (words s) (currentIndex s) (isPlaying s) v (extracting s) (error s)
          (stoppedAtImage s) (imageStopIndex s) (wordElementsRef s)
          (lastWordBeforeImageRef s).

Definition setStoppedAtImage (v : bool) (s : State) : State :=
  mkState (words s) (currentIndex s) (isPlaying s) (wpm s) (extracting s)
          (error s) v (imageStopIndex s) (wordElementsRef s)
          (lastWordBeforeImageRef s).

Definition setImageStopIndex (v : Z) (s : State) : State :=
  mkState (words s) (currentIndex s) (isPlaying s) (wpm s) (extracting s)
          (error s) (stoppedAtImage s) v (wordElementsRef s)
          (lastWordBeforeImageRef s).

Definition setWords (v : list jsstring) (s : State) : State :=
  mkState v (currentIndex s) (isPlaying s) (wpm s) (extracting s) (error s)
          (stoppedAtImage s) (imageStopIndex s) (wordElementsRef s)
          (lastWordBeforeImageRef s).

Definition setError (v : option string) (s : State) : State :=
  mkState (words s) (currentIndex s) (isPlaying s) (wpm s) (extracting s) v
          (stoppedAtImage s) (imageStopIndex s) (wordElementsRef s)
          (lastWordBeforeImageRef s).

Definition setExtracting (v : bool) (s : State) : State :=
  mkState (words s) (currentIndex s) (isPlaying s) (wpm s) v (error s)
          (stoppedAtImage s) (imageStopIndex s) (wordElementsRef s)
          (lastWordBeforeImageRef s).

Definition setWordElementsRef (v : list WordRef) (s : State) : State :=
  mkState (words s) (currentIndex s) (isPlaying s) (wpm s) (extracting s)
          (error s) (stoppedAtImage s) (imageStopIndex s) v
          (lastWordBeforeImageRef s).

Definition setLastWordBeforeImageRef (v : option WordRef) (s : State)
  : State :=
  mkState (words s) (currentIndex s) (isPlaying s) (wpm s) (extracting s)
          (error s) (stoppedAtImage s) (imageStopIndex s)
          (wordElementsRef s) v.

(** [words.length] *)
Definition len (s : State) : Z := Z.of_nat (length (words s)).

(** [arr[i]] for an index that may be negative or too large. *)
Definition at_ {A} (l : list A) (i : Z) : option A :=
  if i <? 0 then None else nth_error l (Z.to_nat i).

(** The state of a freshly mounted overlay. *)
Definition initialState (initialWpm : Z) : State :=
  mkState [] 0 false initialWpm false None false (-1) [] None.

(** *** Timing *)

(** [getInterval]: [Math.round(60000 / wpm)]. *)
Definition getInterval (s : State) : Z := roundDiv 60000 (wpm s).

(** The playback effect, lines 258-289: an interval timer is armed
    exactly when [isPlaying && words.length > 0], with the period
    [getInterval()], whatever the current word is. *)
Definition timerPeriod (s : State) : option Z :=
  if isPlaying s && (0 <? len s) then Some (getInterval s) else None.

(** *** [extractText] and the effect that calls it *)

Definition extractText (r : option Rendition) (s : State) : State :=
  match r with
  | None => setError (Some "Reader not ready"%string) s
  | Some rd =>
      let s := setImageStopIndex (-1)
                 (setStoppedAtImage false (setError None s)) in
      match contents rd with
      | [] => setExtracting false
                (setError (Some "No content available"%string) s)
      | _ =>
          let a := scan rd in
          let s := setWordElementsRef (wordElements a) s in
          match wordList a with
          | [] => setExtracting false
                    (setError
                       (Some "No readable text found on this page"%string) s)
          | _ =>
              let s :=
                if hitImage a && (0 <? imageStopIdx a)
                then setImageStopIndex (imageStopIdx a)
                       (setLastWordBeforeImageRef
                          (at_ (wordElements a) (imageStopIdx a - 1)) s)
                else s in
              setExtracting false
                (setCurrentIndex 0 (setWords (wordList a) s))
          end
      end
  end.

(** The effect on [isOpen], lines 242-255. *)
Definition onOpen (r : option Rendition) (s : State) : State :=
  setCurrentIndex 0 (setIsPlaying false (extractText r s)).

Definition onClosed (s : State) : State := setIsPlaying false s.

(** *** The timer callback and the commands *)

(** The callback of [setInterval], lines 261-274; the timer exists only
    while [timerPeriod] is defined. *)
Definition tick (s : State) : State :=
  if isPlaying s && (0 <? len s) then
    if (0 <? imageStopIndex s) && (imageStopIndex s - 1 <=? currentIndex s)
    then setStoppedAtImage true (setIsPlaying false s)
    else if len s - 1 <=? currentIndex s
    then setIsPlaying false s
    else setCurrentIndex (currentIndex s + 1) s
  else s.

Definition togglePlay (s : State) : State :=
  if stoppedAtImage s then s
  else
    let s' := if len s - 1 <=? currentIndex s
              then setCurrentIndex 0 s else s in
    setIsPlaying (negb (isPlaying s)) s'.

Definition skipBack (s : State) : State :=
  setCurrentIndex (Z.max 0 (currentIndex s - 10)) s.

Definition skipForward (s : State) : State :=
  let maxIndex :=
    if 0 <? imageStopIndex s
    then Z.min (len s - 1) (imageStopIndex s - 1)
    else len s - 1 in
  setCurrentIndex (Z.min maxIndex (currentIndex s + 10)) s.

Definition restart (s : State) : State :=
  setStoppedAtImage false (setIsPlaying false (setCurrentIndex 0 s)).

Definition decreaseWpm (s : State) : State :=
  setWpm (Z.max 100 (wpm s - 50)) s.

Definition increaseWpm (s : State) : State :=
  setWpm (Z.min 1000 (wpm s + 50)) s.

(** The progress slider, lines 542-549: [max] of the range input. *)
Definition sliderMax (s : State) : Z := Z.max 1 (len s - 1).

(** Its [onChange]: [setCurrentIndex(parseInt(e.target.value))].  The
    handler does not clamp; the browser keeps the value of a range
    input between [min = 0] and [max]. *)
Definition seek (v : Z) (s : State) : State := setCurrentIndex v s.

(** [handleClose]: what is passed to [onCloseWithPosition], if it is
    called. *)
Definition handleClose (s : State) : option WordRef :=
  at_ (wordElementsRef s) (currentIndex s).

(** The effect on [stoppedAtImage], lines 292-299: what is passed to
    [onStopAtImage], if it is called. *)
Definition stopNotification (s : State) : option WordRef :=
  if stoppedAtImage s then lastWordBeforeImageRef s else None.

(** The commands a user (or the timer) can issue on an open overlay. *)
Inductive Command :=
| TogglePlay | Tick | SkipBack | SkipForward | Restart
| DecreaseWpm | IncreaseWpm | Seek (v : Z).

Definition step (s : State) (c : Command) : State :=
  match c with
  | TogglePlay => togglePlay s
  | Tick => tick s
  | SkipBack => skipBack s
  | SkipForward => skipForward s
  | Restart => restart s
  | DecreaseWpm => decreaseWpm s
  | IncreaseWpm => increaseWpm s
  | Seek v => seek v s
  end.

Definition run (cs : list Command) (s : State) : State :=
  fold_left step cs s.

Definition isRestart (c : Command) : bool :=
  match c with Restart => true | _ => false end.

(** The states an overlay can be in: it is mounted, and then text is
    extracted (by the effect on [isOpen] or by the retry button), the
    overlay is closed, or a command is issued. *)
Inductive reachable : State -> Prop :=
| reach_mount : forall w, reachable (initialState w)
| reach_extract : forall r s, reachable s -> reachable (extractText r s)
| reach_open : forall r s, reachable s -> reachable (onOpen r s)
| reach_closed : forall s, reachable s -> reachable (onClosed s)
| reach_step : forall c s, reachable s -> reachable (step s c).

(** The settings of [useReaderSettings] that concern the overlay. *)
Record Settings := mkSettings { rsvpSpeed : Z; trainingMode : bool }.

Definition defaultSettings : Settings := mkSettings 300 false.

End Playback.

(* ================================================================= *)
(** ** The specification's wording, for comparison *)

Module SpecWords.
Import Js.

Definition lastUnit (w : jsstring) : option N :=
  match rev w with c :: _ => Some c | [] => None end.

Definition endsWithOneOf (l : list N) (w : jsstring) : bool :=
  match lastUnit w with Some c => memN c l | None => false end.

(** The multiplier of the timing model as a fraction, first match wins:
    5/2 after [. ? !], 3/2 after [, ; :], 6/5 for eight units or more,
    1 otherwise. *)
Definition specMultiplier (w : jsstring) : Z * Z :=
  if endsWithOneOf [46; 63; 33]%N w then (5, 2)
  else if endsWithOneOf [44; 59; 58]%N w then (3, 2)
  else if (8 <=? length w)%nat then (6, 5)
  else (1, 1).

(** [delayMs(word, wpm)] as the timing model words it: the base delay
    [round(60000 / wpm)] times the multiplier, rounded. *)
Definition specDelayMs (w : jsstring) (wpm : Z) : Z :=
  let base := roundDiv 60000 wpm in
  let '(num, den) := specMultiplier w in
  roundDiv (base * num) den.

(** The order of truncation as the range resolver words it for a node
    that is both containers: start offset first, end offset second. *)
Definition specTruncateBoth (startOffset endOffset : nat) (text : jsstring)
  : jsstring :=
  substringTo endOffset (substringFrom startOffset text).

(** The training accelerator as worded: every ten seconds of playback
    with training mode on, [wpm] goes up by 10, at most to 1500. *)
Definition specTrainingStep (wpm : Z) : Z := Z.min 1500 (wpm + 10).

End SpecWords.

(* ================================================================= *)
(** ** Concrete pages and states used below *)

Module Pages.
Import Js Dom Extract Playback.

Definition r0 : Rect := mkRect 0 20.

(** [<body><p>The quick fox</p><img/><p>jumps</p></body>] *)
Definition foxBody : Node :=
  Element 0 "body" r0
    [ Element 1 "p" r0 [Text 2 (lit "The quick fox")];
      Element 3 "img" r0 [];
      Element 4 "p" r0 [Text 5 (lit "jumps")] ].

(** The page in paginated mode without a usable CFI range: the
    fallback walk reads it. *)
Definition foxFallback : Rendition :=
  mkRendition true None [mkContent (Some foxBody) 600].

(** The same page with a CFI range that spans the whole body. *)
Definition foxRange : Range :=
  mkRange 2 0 5 5 (fun _ => true) foxBody.

Definition foxCfi : Rendition :=
  mkRendition true (Some foxRange) [mkContent (Some foxBody) 600].

(** Two rendered documents: a page that is one image, then a page of
    text. *)
Definition imageThenText : Rendition :=
  mkRendition true None
    [ mkContent (Some (Element 0 "body" r0 [Element 1 "img" r0 []])) 600;
      mkContent (Some (Element 10 "body" r0
                         [Element 11 "p" r0 [Text 12 (lit "hello")]])) 600 ].

(** A page with the single word [cat]. *)
Definition catPage : Rendition :=
  mkRendition true None
    [mkContent (Some (Element 0 "body" r0 [Text 1 (lit "cat")])) 600].

(** A range inside one text node: units 2 to 5 of [abcdefgh]. *)
Definition midRange : Range :=
  mkRange 7 2 7 5 (fun _ => true)
          (Element 6 "p" r0 [Text 7 (lit "abcdefgh")]).

Definition fresh : State := initialState 300.

(** A playing overlay showing the one word [Hello.] at 300 wpm. *)
Definition helloPlaying : State :=
  setIsPlaying true (setWords [lit "Hello."] fresh).

(** A playing overlay showing [wonderful] at 300 wpm. *)
Definition wonderfulPlaying : State :=
  setIsPlaying true (setWords [lit "wonderful"] fresh).

Definition catPlaying : State :=
  setIsPlaying true (setWords [lit "cat"] fresh).

(** A one-word overlay, loaded and paused. *)
Definition catLoaded : State := onOpen (Some catPage) fresh.

(** Settings with training mode switched on. *)
Definition trainingOn : Settings := mkSettings 300 true.

(** The overlay is mounted with the [wpm] property; no property
    carries [trainingMode]. *)
Definition mounted (st : Settings) : State := initialState (rsvpSpeed st).

(** A long text being played at 300 wpm, training mode on. *)
Definition longPlaying : State :=
  setIsPlaying true (setWords (repeat (lit "word") 200) (mounted trainingOn)).

(** The fox page, loaded, played to the image. *)
Definition foxStopped : State :=
  run [TogglePlay; Tick; Tick; Tick]
      (onOpen (Some foxFallback) fresh).

(** [<body><script>var x</script><p>   </p><p>***</p></body>] *)
Definition silentBody : Node :=
  Element 0 "body" r0
    [ Element 1 "script" r0 [Text 2 (lit "var x")];
      Element 3 "p" r0 [Text 4 (lit "   ")];
      Element 5 "p" r0 [Text 6 (lit "***")] ].

Definition silentPage : Rendition :=
  mkRendition true None [mkContent (Some silentBody) 600].

End Pages.

(* ================================================================= *)
(** ** The word on display: [getCurrentWordDisplay] *)

Module Display.
Import Js Extract Playback.

(** The four fields of the object the function returns. *)
Record WordDisplay := mkWordDisplay {
  before : jsstring;
  highlight : jsstring;
  after : jsstring;
  orpIndex : nat
}.

Definition blankDisplay : WordDisplay := mkWordDisplay [] [] [] 0.

(** The optimal recognition point by length of the word, lines 428-441. *)
Definition orpFor (n : nat) : nat :=
  if (n <=? 1)%nat then 0%nat
  else if (n <=? 3)%nat then 1%nat
  else if (n <=? 5)%nat then 1%nat
  else if (n <=? 9)%nat then 2%nat
  else if (n <=? 13)%nat then 3%nat
  else 4%nat.

(** [word.slice(0, i)], [word[i] || empty], [word.slice(i + 1)]. *)
Definition splitAt (word : jsstring) (i : nat) : WordDisplay :=
  mkWordDisplay (firstn i word)
                (match nth_error word i with Some c => [c] | None => [] end)
                (skipn (i + 1) word)
                i.

(** Lines 420-449.  [None] stands for the exception raised when
    [words[currentIndex]] is [undefined] and its [length] is read, which
    takes a negative index on a list that is not empty. *)
Definition getCurrentWordDisplay (s : State) : option WordDisplay :=
  if (len s =? 0) || (len s <=? currentIndex s) then Some blankDisplay
  else match at_ (words s) (currentIndex s) with
       | Some word => Some (splitAt word (orpFor (length word)))
       | None => None
       end.

End Display.

(* ================================================================= *)
(** ** The stepper of the settings panel *)

Module Controls.

(** [Stepper], lines 28-49 of the settings panel: the two buttons and
    their [disabled] attributes.  A disabled button does not fire. *)
Definition minusDisabled (min value : Z) : bool := value <=? min.
Definition plusDisabled (max value : Z) : bool := max <=? value.

Definition pressMinus (min step value : Z) : Z :=
  if minusDisabled min value then value else Z.max min (value - step).

Definition pressPlus (max step value : Z) : Z :=
  if plusDisabled max value then value else Z.min max (value + step).

End Controls.

(* ================================================================= *)
(** ** The reader page: page turns and page counts *)

Module Reader.
Import Js.

(** A call made on the rendition. *)
Inductive Call := CallNext | CallPrev.

(** [renditionRef.current] (present or not), [isNavigatingRef.current],
    and the calls made on the rendition so far. *)
Record Nav := mkNav {
  hasRendition : bool;
  isNavigating : bool;
  calls : list Call
}.

(** [goNext] and [goPrev], lines 359-379 of the reader. *)
Definition goNext (s : Nav) : Nav :=
  if hasRendition s && negb (isNavigating s)
  then mkNav (hasRendition s) true (calls s ++ [CallNext])
  else s.

Definition goPrev (s : Nav) : Nav :=
  if hasRendition s && negb (isNavigating s)
  then mkNav (hasRendition s) true (calls s ++ [CallPrev])
  else s.

(** The end of the [relocated] handler, and the fallback timer of 300
    ms: both clear the lock. *)
Definition unlock (s : Nav) : Nav := mkNav (hasRendition s) false (calls s).

Inductive NavEvent := PressNext | PressPrev | Relocated | TimerFired.

Definition navStep (s : Nav) (e : NavEvent) : Nav :=
  match e with
  | PressNext => goNext s
  | PressPrev => goPrev s
  | Relocated => unlock s
  | TimerFired => unlock s
  end.

Definition navRun (es : list NavEvent) (s : Nav) : Nav :=
  fold_left navStep es s.

Definition isPress (e : NavEvent) : bool :=
  match e with PressNext | PressPrev => true | _ => false end.

Definition callOf (e : NavEvent) : list Call :=
  match e with
  | PressNext => [CallNext]
  | PressPrev => [CallPrev]
  | _ => []
  end.

(** [Math.round(1024 / (settings.fontSize / 100))], lines 251 and 347
    of the reader, for a whole [fontSize]: the quotient is the rational
    [102400 / fontSize].  (For [fontSize] from 50 to 200 the two
    roundings of the doubles move the quotient by less than 2^-40, and
    the rational is at least 1/400 away from a half-integer.) *)
Definition charsPerPage (fontSize : Z) : Z := roundDiv 102400 fontSize.

End Reader.

(* ================================================================= *)
(** ** The book store: [db.js] *)

Module Db.
Import Js.

(** A record of the object store [books]; [id] is the key path, filled
    by the key generator. *)
Record Book := mkBook {
  id : nat;
  title : jsstring;
  author : jsstring;
  cover : option (list N);
  data : list N;
  series : jsstring;
  progress : QArith_base.Q;
  lastRead : option jsstring;
  addedAt : Z
}.

(** What [addBook] is given: a book without [id] and [addedAt]. *)
Record BookData := mkBookData {
  dTitle : jsstring;
  dAuthor : jsstring;
  dCover : option (list N);
  dData : list N;
  dSeries : jsstring;
  dProgress : QArith_base.Q;
  dLastRead : option jsstring
}.

(** The object store: its records in the order of their keys, and the
    current number of the key generator. *)
Record Store := mkStore {
  records : list Book;
  nextId : nat
}.

(** A fresh database: no record, the generator at 1. *)
Definition emptyStore : Store := mkStore [] 1.

(** [db.get(books, i)] *)
Definition get (i : nat) (st : Store) : option Book :=
  find (fun b => Nat.eqb (id b) i) (records st).

(** The record is written at the place of its key. *)
Fixpoint putRec (b : Book) (l : list Book) : list Book :=
  match l with
  | [] => [b]
  | x :: l' =>
      if Nat.eqb (id b) (id x) then b :: l'
      else if Nat.ltb (id b) (id x) then b :: x :: l'
      else x :: putRec b l'
  end.

(** [db.put(books, book)] for a book that carries its key: it replaces
    the record of that key or adds one, and the generator moves past
    the key. *)
Definition put (b : Book) (st : Store) : Store :=
  mkStore (putRec b (records st)) (Nat.max (nextId st) (S (id b))).

(** [db.delete(books, i)] *)
Definition delete (i : nat) (st : Store) : Store :=
  mkStore (filter (fun b => negb (Nat.eqb (id b) i)) (records st)) (nextId st).

(** [addBook]: [db.add] with a generated key and [addedAt: new Date()],
    where [now] is the clock.  It returns the store and the key; [None]
    is the constraint error of [add] on a key that is taken. *)
Definition addBook (d : BookData) (now : Z) (st : Store)
  : option (Store * nat) :=
  let k := nextId st in
  match get k st with
  | Some _ => None
  | None =>
      Some (put (mkBook k (dTitle d) (dAuthor d) (dCover d) (dData d)
                        (dSeries d) (dProgress d) (dLastRead d) now) st,
            k)
  end.

(** [getBook] *)
Definition getBook (i : nat) (st : Store) : option Book := get i st.

(** [updateBookProgress]: nothing happens for a key without record. *)
Definition updateBookProgress (i : nat) (location : jsstring)
           (p : QArith_base.Q) (st : Store) : Store :=
  match get i st with
  | Some book =>
      put (mkBook (id book) (title book) (author book) (cover book)
                  (data book) (series book) p (Some location)
                  (addedAt book)) st
  | None => st
  end.

(** [deleteBook] *)
Definition deleteBook (i : nat) (st : Store) : Store := delete i st.

(** The index [addedAt]: records by [addedAt], and by key among equal
    dates.  [insertByDate] puts a record in front of the first one that
    is not older. *)
Fixpoint insertByDate (b : Book) (l : list Book) : list Book :=
  match l with
  | [] => [b]
  | x :: l' =>
      if addedAt b <=? addedAt x then b :: l else x :: insertByDate b l'
  end.

Definition sortByDate (l : list Book) : list Book :=
  fold_right insertByDate [] l.

(** [getBooks]: [db.getAllFromIndex(books, addedAt)] *)
Definition getBooks (st : Store) : list Book := sortByDate (records st).

(** The stores the functions of [db.js] can produce. *)
Inductive reachableStore : Store -> Prop :=
| store_fresh : reachableStore emptyStore
| store_add : forall d now st st' k,
    reachableStore st -> addBook d now st = Some (st', k) ->
    reachableStore st'
| store_update : forall i loc p st,
    reachableStore st -> reachableStore (updateBookProgress i loc p st)
| store_delete : forall i st,
    reachableStore st -> reachableStore (deleteBook i st).

End Db.

(* ================================================================= *)
(** ** The library page *)

Module Library.
Import Js Db.

(** [books] and [deleteConfirm] of the library page. *)
Record View := mkView {
  books : list Book;
  deleteConfirm : option nat
}.

(** [loadBooks]: the stored books, most recent first. *)
Definition loadBooks (st : Store) (v : View) : View :=
  mkView (rev (getBooks st)) (deleteConfirm v).

(** [handleDelete]: the record is deleted and the book is filtered out
    of the list on the page, without loading the list again. *)
Definition handleDelete (i : nat) (st : Store) (v : View) : Store * View :=
  (deleteBook i st,
   mkView (filter (fun b => negb (Nat.eqb (id b) i)) (books v)) None).

End Library.

(* ================================================================= *)
(** ** The reader page and its overlay *)

Module App.
Import Js Extract Playback.

(** [showRSVP] and [showUI] of the reader page. *)
Record Ui := mkUi { showRSVP : bool; showUI : bool }.

(** The reader page with the overlay it renders. *)
Record Page := mkPage {
  overlay : State;
  ui : Ui;
  nav : Reader.Nav
}.

(** [handleRSVPStopAtImage(lastWordInfo, navigateToNext = true)], lines
    444-473 of the reader, without the styling of the highlight: the
    overlay is closed and, if asked, [rendition.next()] is called.  The
    page-turn lock is not consulted. *)
Definition handleRSVPStopAtImage (navigateToNext : bool) (pg : Page) : Page :=
  if negb (Reader.hasRendition (nav pg)) then pg
  else
    let n := nav pg in
    mkPage (overlay pg) (mkUi false true)
           (if navigateToNext
            then Reader.mkNav (Reader.hasRendition n) (Reader.isNavigating n)
                              (Reader.calls n ++ [Reader.CallNext])
            else n).

(** The overlay's effect on [stoppedAtImage], lines 292-299: the
    reference, if there is one, is passed to [onStopAtImage] alone, so
    [navigateToNext] takes its default. *)
Definition stopEffect (pg : Page) : Page :=
  match stopNotification (overlay pg) with
  | Some _ => handleRSVPStopAtImage true pg
  | None => pg
  end.

(** A tick of the overlay's timer, followed by the effect. *)
Definition tickPage (pg : Page) : Page :=
  stopEffect (mkPage (tick (overlay pg)) (ui pg) (nav pg)).

End App.

(* ================================================================= *)
(** ** Concrete readers and stores used below *)

Module Samples.
Import Js.

(** A reader with a rendition and no page turn pending. *)
Definition navIdle : Reader.Nav := Reader.mkNav true false [].

Definition someBook : Db.BookData :=
  Db.mkBookData (lit "Dune") (lit "Herbert") None [80; 75]%N
                (lit "Uncategorized") (QArith_base.Qmake 0 1) None.

Definition otherBook : Db.BookData :=
  Db.mkBookData (lit "Emma") (lit "Austen") None [80; 75]%N
                (lit "Uncategorized") (QArith_base.Qmake 0 1) None.

(** A store after two imports, at the times 10 and 20. *)
Definition twoBooks : Db.Store :=
  match Db.addBook someBook 10 Db.emptyStore with
  | Some (st, _) =>
      match Db.addBook otherBook 20 st with
      | Some (st', _) => st'
      | None => st
      end
  | None => Db.emptyStore
  end.

End Samples.

Import Js Dom Extract Playback SpecWords Pages Samples.

(* ================================================================= *)
(** ** Properties of scans and states *)

(** The two lists grow together. *)
Definition lockstep (a : Scan) : Prop :=
  map word (wordElements a) = wordList a.

(** The rule of the data model, as worded: the stop index is none
    exactly when no image was hit. *)
Definition stopIndexNoneIffNoImage (rd : Rendition) (s : State) : Prop :=
  imageStopIndex (extractText (Some rd) s) = -1
  <-> hitImage (scan rd) = false.

(** What the handlers rely on: the references are either absent or in
    lockstep with the words shown; a recorded stop index comes with the
    reference of the word before the image; playback is stopped at an
    image only when a stop index is recorded. *)
Definition consistent (s : State) : Prop :=
  (wordElementsRef s = [] \/ map word (wordElementsRef s) = words s)
  /\ (0 < imageStopIndex s ->
      lastWordBeforeImageRef s
      = at_ (wordElementsRef s) (imageStopIndex s - 1))
  /\ (stoppedAtImage s = true -> 0 < imageStopIndex s).



(** The last index playback shows: the word before the image when a
    stop index is recorded, the last word otherwise.  It is [maxIndex]
    of [skipForward], and the index at which [tick] stops. *)
Definition playLimit (s : State) : Z :=
  if 0 <? imageStopIndex s
  then Z.min (len s - 1) (imageStopIndex s - 1)
  else len s - 1.

(** A token as the walks build it: the word is the cleaned original,
    it is not empty, the original holds no white space, and the word
    holds only units of the kept class that are not white space. *)
Definition tokenOk (r : WordRef) : Prop :=
  word r = clean (originalWord r)
  /\ word r <> []
  /\ Forall (fun c => isWhiteSpace c = false) (originalWord r)
  /\ Forall (fun c => isKept c = true /\ isWhiteSpace c = false) (word r).

(** A unit that leaves no trace in any word: white space, or a unit the
    cleaning removes. *)
Definition silentUnit (c : N) : bool := isWhiteSpace c || negb (isKept c).

Definition silentNode (n : Node) : bool :=
  match n with
  | Text _ t => forallb silentUnit t
  | _ => true
  end.

(** A store whose records are in the strict order of their keys, all
    below the number of the key generator. *)
Definition storeOk (st : Db.Store) : Prop :=
  StronglySorted Nat.lt (map Db.id (Db.records st))
  /\ Forall (fun k => (k < Db.nextId st)%nat) (map Db.id (Db.records st)).

Definition inDateOrder (l : list Db.Book) : Prop :=
  StronglySorted (fun a b => Db.addedAt a <= Db.addedAt b) l.

(* ================================================================= *)
(** ** Lemmas on the two walks *)

Lemma pushWord_lockstep n p a w : lockstep a -> lockstep (pushWord n p a w).
Proof.
  unfold lockstep, pushWord; intros H.
  destruct (nonEmpty (clean w)); cbn; [|exact H].
  rewrite map_app, H; reflexivity.
Qed.

Lemma pushWord_flags n p a w :
  hitImage (pushWord n p a w) = hitImage a
  /\ imageStopIdx (pushWord n p a w) = imageStopIdx a.
Proof. unfold pushWord; destruct (nonEmpty (clean w)); cbn; auto. Qed.

Lemma pushWords_lockstep n p ws :
  forall a, lockstep a -> lockstep (fold_left (pushWord n p) ws a).
Proof.
  induction ws as [|w ws IH]; cbn; intros a H; [exact H|].
  apply IH, pushWord_lockstep, H.
Qed.

Lemma pushWords_flags n p ws :
  forall a, hitImage (fold_left (pushWord n p) ws a) = hitImage a
            /\ imageStopIdx (fold_left (pushWord n p) ws a) = imageStopIdx a.
Proof.
  induction ws as [|w ws IH]; cbn; intros a; [auto|].
  destruct (IH (pushWord n p a w)) as [H1 H2].
  destruct (pushWord_flags n p a w) as [H3 H4].
  split; congruence.
Qed.

Lemma pushText_lockstep n p t a : lockstep a -> lockstep (pushText n p t a).
Proof.
  unfold pushText; intros H.
  destruct (nonEmpty (trim t)); [apply pushWords_lockstep, H | exact H].
Qed.

Lemma pushText_hitImage n p t a : hitImage (pushText n p t a) = hitImage a.
Proof.
  unfold pushText.
  destruct (nonEmpty (trim t)); [apply pushWords_flags | reflexivity].
Qed.

Lemma stopAtImage_lockstep a : lockstep a -> lockstep (stopAtImage a).
Proof. intros H; exact H. Qed.

Lemma cfiLoop_lockstep rg ns :
  forall a, lockstep a -> lockstep (cfiLoop rg ns a).
Proof.
  induction ns as [|[n p] ns IH]; cbn [cfiLoop fallbackLoop]; intros a H; [exact H|].
  destruct (hitImage a); [exact H|].
  destruct (cfiHalts rg n); [exact H|].
  destruct n as [i t| |]; auto using pushText_lockstep.
Qed.

Lemma fallbackLoop_lockstep pg vh ns :
  forall a, lockstep a -> lockstep (fallbackLoop pg vh ns a).
Proof.
  induction ns as [|[n p] ns IH]; cbn [cfiLoop fallbackLoop]; intros a H; [exact H|].
  destruct n as [i t|i t r cs|i].
  - destruct (textSkipped pg vh (prect p)); auto using pushText_lockstep.
  - destruct (isImageTag t && imageStops pg vh r); [exact H | auto].
  - auto.
Qed.

Lemma fallbackWalk_lockstep pg cs :
  forall a, lockstep a -> lockstep (fallbackWalk pg cs a).
Proof.
  unfold fallbackWalk.
  induction cs as [|c cs IH]; cbn; intros a H; [exact H|].
  apply IH. unfold fallbackContent.
  destruct (body c); auto using fallbackLoop_lockstep.
Qed.

Lemma scan_lockstep rd : lockstep (scan rd).
Proof.
  assert (E : lockstep emptyScan) by reflexivity.
  unfold scan.
  set (a := if isPaginated rd then _ else _).
  assert (Ha : lockstep a).
  { subst a. destruct (isPaginated rd); [|exact E].
    destruct (cfiRange rd); [|exact E].
    apply cfiLoop_lockstep, E. }
  destruct (wordList a); [|exact Ha].
  apply fallbackWalk_lockstep, Ha.
Qed.

(** A walk that meets a halting image after the nodes [pre] ends there. *)
Lemma cfiLoop_halts rg pre :
  forall b p post a,
    hitImage a = false ->
    (forall x, In x pre -> cfiHalts rg (fst x) = false) ->
    cfiHalts rg b = true ->
    cfiLoop rg (pre ++ (b, p) :: post) a = stopAtImage (cfiLoop rg pre a).
Proof.
  induction pre as [|[n q] pre IH]; cbn [cfiLoop fallbackLoop app]; intros b p post a Ha Hpre Hb.
  - rewrite Ha, Hb; reflexivity.
  - rewrite Ha. pose proof (Hpre (n, q) (or_introl eq_refl)) as Hn.
    cbn [fst] in Hn. rewrite Hn.
    assert (Hpre' : forall x, In x pre -> cfiHalts rg (fst x) = false)
      by (intros x Hx; apply Hpre; right; exact Hx).
    destruct n as [i t| |]; apply IH; auto.
    rewrite pushText_hitImage; exact Ha.
Qed.

Lemma fallbackLoop_halts pg vh pre :
  forall b p post a,
    (forall x, In x pre -> fallbackHalts pg vh (fst x) = false) ->
    fallbackHalts pg vh b = true ->
    fallbackLoop pg vh (pre ++ (b, p) :: post) a
    = stopAtImage (fallbackLoop pg vh pre a).
Proof.
  induction pre as [|[n q] pre IH]; cbn [cfiLoop fallbackLoop app]; intros b p post a Hpre Hb.
  - destruct b as [i t|i t r cs|i]; cbn [fallbackHalts] in Hb; try discriminate.
    rewrite Hb; reflexivity.
  - pose proof (Hpre (n, q) (or_introl eq_refl)) as Hn.
    assert (Hpre' : forall x, In x pre -> fallbackHalts pg vh (fst x) = false)
      by (intros x Hx; apply Hpre; right; exact Hx).
    destruct n as [i t|i t r cs|i]; cbn [fallbackHalts fst] in Hn.
    + destruct (textSkipped pg vh (prect q)); apply IH; auto.
    + rewrite Hn. apply IH; auto.
    + apply IH; auto.
Qed.

(* ================================================================= *)
(** ** Segmentation stops at an image *)

(** C2.  The page [The quick fox], image, [jumps] is cut into exactly
    the three words before the image, with stop index 3, on the fallback
    walk and on the walk over a CFI range alike; no word of [jumps] is
    there.  In general, in each of the two walks, when the nodes [pre]
    hold no halting image and the next node [b] is one, the walk over
    [pre ++ b :: post] ends at [b]: its result is that of the walk over
    [pre] with [hitImage] set and [imageStopIdx] set to the number of
    words at that moment, whatever [post] is. *)
Theorem segmentation_halts_at_image :
  (let st := extractText (Some foxFallback) fresh in
   words st = [lit "The"; lit "quick"; lit "fox"]
   /\ imageStopIndex st = 3 /\ ~ In (lit "jumps") (words st))
  /\ (let st := extractText (Some foxCfi) fresh in
      words st = [lit "The"; lit "quick"; lit "fox"]
      /\ imageStopIndex st = 3 /\ ~ In (lit "jumps") (words st))
  /\ (forall rg pre b p post a,
         hitImage a = false ->
         (forall x, In x pre -> cfiHalts rg (fst x) = false) ->
         cfiHalts rg b = true ->
         let res := cfiLoop rg (pre ++ (b, p) :: post) a in
         res = stopAtImage (cfiLoop rg pre a)
         /\ hitImage res = true
         /\ wordList res = wordList (cfiLoop rg pre a)
         /\ imageStopIdx res = Z.of_nat (length (wordList res)))
  /\ (forall pg vh pre b p post a,
         (forall x, In x pre -> fallbackHalts pg vh (fst x) = false) ->
         fallbackHalts pg vh b = true ->
         let res := fallbackLoop pg vh (pre ++ (b, p) :: post) a in
         res = stopAtImage (fallbackLoop pg vh pre a)
         /\ hitImage res = true
         /\ wordList res = wordList (fallbackLoop pg vh pre a)
         /\ imageStopIdx res = Z.of_nat (length (wordList res))).
Proof.
  split; [|split; [|split]].
  - cbv zeta. repeat split; try (vm_compute; reflexivity).
    vm_compute. intros [H|[H|[H|[]]]]; discriminate H.
  - cbv zeta. repeat split; try (vm_compute; reflexivity).
    vm_compute. intros [H|[H|[H|[]]]]; discriminate H.
  - intros rg pre b p post a Ha Hpre Hb res. subst res.
    rewrite (cfiLoop_halts rg pre b p post a Ha Hpre Hb).
    repeat split.
  - intros pg vh pre b p post a Hpre Hb res. subst res.
    rewrite (fallbackLoop_halts pg vh pre b p post a Hpre Hb).
    repeat split.
Qed.

Lemma segmentation_halts_at_image_witness :
  cfiLoop foxRange (cfiNodes foxRange) emptyScan
  = stopAtImage (cfiLoop foxRange (firstn 2 (cfiNodes foxRange)) emptyScan)
  /\ fallbackLoop true 600 (fallbackNodes foxBody) emptyScan
     = stopAtImage
         (fallbackLoop true 600 (firstn 2 (fallbackNodes foxBody)) emptyScan).
Proof.
  destruct segmentation_halts_at_image as (_ & _ & Hc & Hf).
  split.
  - refine (proj1 (Hc foxRange (firstn 2 (cfiNodes foxRange))
                      (Element 3 "img" r0 []) 0%nat
                      (skipn 3 (cfiNodes foxRange)) emptyScan _ _ _)).
    + reflexivity.
    + intros x [<-|[<-|[]]]; reflexivity.
    + reflexivity.
  - refine (proj1 (Hf true 600 (firstn 2 (fallbackNodes foxBody))
                      (Element 3 "img" r0 []) (asParent foxBody)
                      (skipn 3 (fallbackNodes foxBody)) emptyScan _ _)).
    + intros x [<-|[<-|[]]]; reflexivity.
    + reflexivity.
Defined.

(* ================================================================= *)
(** ** When the stop index is recorded *)

(** C3, as worded, fails: on an image page followed by a text page the
    walk hits the image at position 0, the extraction succeeds with the
    word [hello], and the stop index stays at its none value -1. *)
Lemma stop_index_none_after_image_at_0 :
  let st := extractText (Some imageThenText) fresh in
  hitImage (scan imageThenText) = true
  /\ imageStopIdx (scan imageThenText) = 0
  /\ words st = [lit "hello"]
  /\ error st = None
  /\ imageStopIndex st = -1
  /\ ~ stopIndexNoneIffNoImage imageThenText fresh.
Proof.
  cbv zeta. repeat split; try (vm_compute; reflexivity).
  unfold stopIndexNoneIffNoImage. intros [H _].
  assert (E : imageStopIndex (extractText (Some imageThenText) fresh) = -1)
    by (vm_compute; reflexivity).
  specialize (H E). vm_compute in H. discriminate H.
Qed.

Lemma extractText_imageStopIndex rd s :
  contents rd <> [] ->
  imageStopIndex (extractText (Some rd) s)
  = match wordList (scan rd) with
    | [] => -1
    | _ => if hitImage (scan rd) && (0 <? imageStopIdx (scan rd))
           then imageStopIdx (scan rd) else -1
    end.
Proof.
  intros Hc. unfold extractText.
  destruct (contents rd) as [|c cs]; [contradiction|].
  destruct (wordList (scan rd)); [reflexivity|].
  destruct (hitImage (scan rd) && (0 <? imageStopIdx (scan rd))); reflexivity.
Qed.

(** C3, amended.  After an extraction over a non-empty list of contents
    the stop index is defined exactly when words were found and an image
    was hit at a position greater than 0, and it is then that position;
    an image hit at position 0 leaves the stop index none. *)
Theorem stop_index_defined_iff_image_after_words :
  forall rd s,
    contents rd <> [] ->
    let st := extractText (Some rd) s in
    (imageStopIndex st <> -1
     <-> wordList (scan rd) <> [] /\ hitImage (scan rd) = true
         /\ 0 < imageStopIdx (scan rd))
    /\ (imageStopIndex st <> -1 -> imageStopIndex st = imageStopIdx (scan rd))
    /\ (imageStopIdx (scan rd) = 0 -> imageStopIndex st = -1).
Proof.
  intros rd s Hc st. subst st.
  rewrite (extractText_imageStopIndex rd s Hc).
  assert (Hnil : forall A (x : A) l, x :: l <> []) by discriminate.
  destruct (wordList (scan rd)) as [|w ws].
  - split; [split|split]; intros; try lia; try tauto.
  - destruct (hitImage (scan rd)); cbn [andb].
    + destruct (Z.ltb_spec 0 (imageStopIdx (scan rd)));
        (split; [split|split]); intros; auto; try lia; try tauto.
    + split; [split|split]; intros; try lia; try tauto.
Qed.

Lemma stop_index_defined_iff_image_after_words_witness :
  imageStopIndex (extractText (Some foxFallback) fresh) <> -1
  /\ imageStopIndex (extractText (Some imageThenText) fresh) = -1.
Proof.
  split.
  - apply (proj1 (stop_index_defined_iff_image_after_words
                    foxFallback fresh ltac:(discriminate))).
    split; [vm_compute; discriminate | split; reflexivity].
  - apply (proj2 (proj2 (stop_index_defined_iff_image_after_words
                           imageThenText fresh ltac:(discriminate)))).
    reflexivity.
Defined.

(* ================================================================= *)
(** ** The text of a node that holds both ends of the range *)

(** C5, as worded, fails: for the range from unit 2 to unit 5 inside the
    text [abcdefgh] the walk uses [cde], while cutting at the start
    offset first and at the end offset second gives [cdefg]. *)
Lemma truncation_order_differs :
  partialText midRange 7 (lit "abcdefgh") = lit "cde"
  /\ specTruncateBoth (startOffset midRange) (endOffset midRange)
                      (lit "abcdefgh") = lit "cdefg"
  /\ partialText midRange 7 (lit "abcdefgh")
     <> specTruncateBoth (startOffset midRange) (endOffset midRange)
                         (lit "abcdefgh").
Proof.
  repeat split; try (vm_compute; reflexivity).
  vm_compute. discriminate.
Qed.

(** C5, amended.  For a text node that is both the start and the end
    container the text is cut at the end offset first and at the start
    offset second; what remains is the units from the start offset up to
    the end offset. *)
Theorem partialText_both_containers :
  forall rg n text,
    n = startContainer rg ->
    n = endContainer rg ->
    partialText rg n text
    = substringFrom (startOffset rg) (substringTo (endOffset rg) text)
    /\ partialText rg n text
       = firstn (endOffset rg - startOffset rg) (skipn (startOffset rg) text).
Proof.
  intros rg n text Hs He. unfold partialText.
  rewrite <- Hs, <- He, Nat.eqb_refl.
  split; [reflexivity|].
  unfold substringFrom, substringTo. apply skipn_firstn_comm.
Qed.

Lemma partialText_both_containers_witness :
  partialText midRange 7 (lit "abcdefgh")
  = firstn (5 - 2) (skipn 2 (lit "abcdefgh")).
Proof.
  exact (proj2 (partialText_both_containers midRange 7%nat (lit "abcdefgh")
                  eq_refl eq_refl)).
Defined.

(* ================================================================= *)
(** ** Words and their back-references *)

Lemma at_map {A B} (f : A -> B) l i x :
  at_ l i = Some x -> at_ (map f l) i = Some (f x).
Proof.
  unfold at_. destruct (i <? 0); [discriminate|].
  intros H. apply map_nth_error, H.
Qed.

Lemma consistent_initial w : consistent (initialState w).
Proof. repeat split; cbn; auto; try lia; discriminate. Qed.

Lemma consistent_extractText r s :
  consistent s -> consistent (extractText r s).
Proof.
  intros (H1 & H2 & H3). unfold extractText.
  destruct r as [rd|]; [|repeat split; assumption].
  destruct (contents rd) as [|c cs].
  { repeat split; cbn; auto; try lia; discriminate. }
  pose proof (scan_lockstep rd) as L. unfold lockstep in L.
  destruct (wordList (scan rd)) as [|w ws] eqn:E.
  { apply map_eq_nil in L.
    repeat split; cbn; auto; try lia; discriminate. }
  destruct (hitImage (scan rd) && (0 <? imageStopIdx (scan rd))).
  - repeat split; cbn; auto; discriminate.
  - repeat split; cbn; auto; try lia; discriminate.
Qed.

Lemma consistent_step s c : consistent s -> consistent (step s c).
Proof.
  intros H. pose proof H as (H1 & H2 & H3).
  destruct c; cbn [step].
  - unfold togglePlay.
    destruct (stoppedAtImage s) eqn:E; [exact H|].
    destruct (len s - 1 <=? currentIndex s); repeat split; cbn; auto;
      intros; congruence.
  - unfold tick.
    destruct (isPlaying s && (0 <? len s)); [|exact H].
    destruct ((0 <? imageStopIndex s)
              && (imageStopIndex s - 1 <=? currentIndex s)) eqn:E.
    + repeat split; cbn; auto.
      intros _. apply andb_prop in E. lia.
    + destruct (len s - 1 <=? currentIndex s); repeat split; cbn; auto.
  - repeat split; cbn; auto.
  - repeat split; cbn; auto.
  - repeat split; cbn; auto. discriminate.
  - repeat split; cbn; auto.
  - repeat split; cbn; auto.
  - repeat split; cbn; auto.
Qed.

Lemma consistent_reachable s : reachable s -> consistent s.
Proof.
  induction 1 as [w | r s _ IH | r s _ IH | s _ IH | c s _ IH].
  - apply consistent_initial.
  - apply consistent_extractText, IH.
  - apply (consistent_extractText r) in IH.
    destruct IH as (H1 & H2 & H3). repeat split; assumption.
  - destruct IH as (H1 & H2 & H3). repeat split; assumption.
  - apply consistent_step, IH.
Qed.

Lemma extractText_success rd s :
  error (extractText (Some rd) s) = None ->
  words (extractText (Some rd) s) = wordList (scan rd)
  /\ wordElementsRef (extractText (Some rd) s) = wordElements (scan rd)
  /\ currentIndex (extractText (Some rd) s) = 0.
Proof.
  unfold extractText.
  destruct (contents rd); [discriminate|].
  destruct (wordList (scan rd)); [discriminate|].
  destruct (hitImage (scan rd) && (0 <? imageStopIdx (scan rd)));
    intros _; repeat split.
Qed.

(** C10.  After every extraction the word list and the list of
    references have the same length, and the reference at a position
    carries the cleaned word at that position; a successful extraction
    installs exactly these two lists.  Hence, in every state the overlay
    can reach, the reference handed out on close is that of the word at
    the current index, and the reference handed out when playback stops
    at an image is that of the word at the stop index minus one. *)
Theorem references_in_lockstep_with_words :
  (forall rd,
      length (wordList (scan rd)) = length (wordElements (scan rd))
      /\ forall i ref,
          nth_error (wordElements (scan rd)) i = Some ref ->
          nth_error (wordList (scan rd)) i = Some (word ref))
  /\ (forall rd s,
         error (extractText (Some rd) s) = None ->
         words (extractText (Some rd) s) = wordList (scan rd)
         /\ wordElementsRef (extractText (Some rd) s)
            = wordElements (scan rd))
  /\ (forall s ref,
         reachable s ->
         (handleClose s = Some ref ->
          at_ (words s) (currentIndex s) = Some (word ref))
         /\ (stopNotification s = Some ref ->
             at_ (words s) (imageStopIndex s - 1) = Some (word ref))).
Proof.
  split; [|split].
  - intros rd. pose proof (scan_lockstep rd) as L. unfold lockstep in L.
    split.
    + rewrite <- L. apply length_map.
    + intros i ref H. rewrite <- L. apply map_nth_error, H.
  - intros rd s H. destruct (extractText_success rd s H) as (Hw & Hr & _).
    split; assumption.
  - intros s ref Hs.
    destruct (consistent_reachable s Hs) as (H1 & H2 & H3).
    assert (K : forall i, at_ (wordElementsRef s) i = Some ref ->
                          at_ (words s) i = Some (word ref)).
    { intros i Hi. destruct H1 as [H1|H1].
      - rewrite H1 in Hi. unfold at_ in Hi.
        destruct (i <? 0); [discriminate|].
        destruct (Z.to_nat i); discriminate.
      - rewrite <- H1. apply at_map, Hi. }
    split.
    + apply K.
    + unfold stopNotification.
      destruct (stoppedAtImage s); [|discriminate].
      intros Hl. apply K. rewrite <- H2; auto.
Qed.

Lemma references_in_lockstep_with_words_witness :
  at_ (words (extractText (Some foxFallback) fresh))
      (currentIndex (extractText (Some foxFallback) fresh))
  = Some (lit "The").
Proof.
  refine (proj1 (proj2 (proj2 references_in_lockstep_with_words)
                   (extractText (Some foxFallback) fresh)
                   (mkWordRef 2 1 (lit "The") (lit "The")) _) _).
  - apply reach_extract, reach_mount.
  - reflexivity.
Defined.

(* ================================================================= *)
(** ** Timing *)

(** The period of the playback timer is [getInterval()] and nothing
    else: it reads [wpm], never the word on display. *)
Lemma timerPeriod_is_base_delay s d :
  timerPeriod s = Some d -> d = roundDiv 60000 (wpm s).
Proof.
  unfold timerPeriod, getInterval.
  destruct (isPlaying s && (0 <? len s)); congruence.
Qed.

(** C1.  At 300 wpm the timer that displays [Hello.] is armed with 200
    ms, and so is the one that displays [wonderful], where the timing
    model as worded asks for 500 ms and 240 ms; only for a word without
    a multiplier, such as [cat], do the two agree (200 ms). *)
Theorem timer_period_has_no_multiplier :
  timerPeriod helloPlaying = Some 200
  /\ specDelayMs (lit "Hello.") 300 = 500
  /\ timerPeriod wonderfulPlaying = Some 200
  /\ specDelayMs (lit "wonderful") 300 = 240
  /\ timerPeriod catPlaying = Some 200
  /\ specDelayMs (lit "cat") 300 = 200.
Proof. repeat split; vm_compute; reflexivity. Qed.

Lemma roundDiv_antitone a w1 w2 :
  0 <= a -> 0 < w1 -> w1 <= w2 -> roundDiv a w2 <= roundDiv a w1.
Proof.
  intros Ha H1 H12. unfold roundDiv.
  apply Z.div_le_lower_bound; [lia|].
  pose proof (Z.mul_div_le (2 * a + w2) (2 * w2) ltac:(lia)) as Hq.
  pose proof (Z.div_pos (2 * a + w2) (2 * w2) ltac:(lia) ltac:(lia)) as Hp.
  set (q := (2 * a + w2) / (2 * w2)) in *.
  destruct (Z.eq_dec q 0) as [->|Hq0]; [lia|].
  assert ((2 * q - 1) * w1 <= (2 * q - 1) * w2)
    by (apply Z.mul_le_mono_nonneg_l; lia).
  lia.
Qed.

(** C9.  Over the range from 100 to 1500 wpm the delay between two
    words never grows when wpm grows, whatever the word is: the delay
    does not read the word. *)
Theorem getInterval_decreases_with_wpm :
  forall s1 s2,
    100 <= wpm s1 -> wpm s1 <= wpm s2 -> wpm s2 <= 1500 ->
    getInterval s2 <= getInterval s1.
Proof.
  intros s1 s2 H1 H12 H2. unfold getInterval.
  apply roundDiv_antitone; lia.
Qed.

(** The decrease is not strict: the delay is a whole number of
    milliseconds, and 1499 and 1500 wpm both give 40 ms. *)
Lemma getInterval_plateau :
  getInterval (setWpm 1499 helloPlaying) = 40
  /\ getInterval (setWpm 1500 helloPlaying) = 40.
Proof. split; reflexivity. Qed.

Lemma getInterval_decreases_with_wpm_witness :
  getInterval (setWpm 1500 helloPlaying) <= getInterval helloPlaying.
Proof.
  apply (getInterval_decreases_with_wpm helloPlaying
           (setWpm 1500 helloPlaying)); cbn; lia.
Defined.

(* ================================================================= *)
(** ** Playback *)

Lemma step_keeps_stopped s c :
  isRestart c = false ->
  stoppedAtImage s = true -> stoppedAtImage (step s c) = true.
Proof.
  intros Hc Hs. destruct c; try discriminate; cbn [step]; try exact Hs.
  - unfold togglePlay. rewrite Hs. exact Hs.
  - unfold tick.
    destruct (isPlaying s && (0 <? len s)); [|exact Hs].
    destruct ((0 <? imageStopIndex s)
              && (imageStopIndex s - 1 <=? currentIndex s)); [reflexivity|].
    destruct (len s - 1 <=? currentIndex s); exact Hs.
Qed.

Lemma run_keeps_stopped cs :
  forall s,
    forallb (fun c => negb (isRestart c)) cs = true ->
    stoppedAtImage s = true -> stoppedAtImage (run cs s) = true.
Proof.
  unfold run.
  induction cs as [|c cs IH]; cbn [fold_left forallb]; intros s Hcs Hs.
  - exact Hs.
  - apply andb_prop in Hcs. destruct Hcs as [Hc Hcs].
    apply IH; [exact Hcs|].
    apply step_keeps_stopped; [|exact Hs].
    destruct (isRestart c); [discriminate | reflexivity].
Qed.

(** C4.  In a state stopped at an image [togglePlay] changes nothing at
    all, and it goes on changing nothing after any sequence of commands
    and timer ticks that holds no restart: those keep the overlay stopped
    at the image.  (Continuing past the image closes the overlay; the
    next extraction clears the flag.) *)
Theorem togglePlay_noop_while_stopped_at_image :
  forall s,
    stoppedAtImage s = true ->
    togglePlay s = s
    /\ forall cs,
        forallb (fun c => negb (isRestart c)) cs = true ->
        stoppedAtImage (run cs s) = true
        /\ togglePlay (run cs s) = run cs s.
Proof.
  intros s Hs. split.
  - unfold togglePlay. rewrite Hs. reflexivity.
  - intros cs Hcs.
    pose proof (run_keeps_stopped cs s Hcs Hs) as H.
    split; [exact H|]. unfold togglePlay. rewrite H. reflexivity.
Qed.

Lemma togglePlay_noop_while_stopped_at_image_witness :
  stoppedAtImage foxStopped = true
  /\ togglePlay foxStopped = foxStopped
  /\ togglePlay (run [SkipBack; TogglePlay; Seek 1; Tick] foxStopped)
     = run [SkipBack; TogglePlay; Seek 1; Tick] foxStopped.
Proof.
  assert (H : stoppedAtImage foxStopped = true) by reflexivity.
  destruct (togglePlay_noop_while_stopped_at_image foxStopped H) as [H1 H2].
  split; [exact H|]. split; [exact H1|].
  apply (H2 [SkipBack; TogglePlay; Seek 1; Tick]). reflexivity.
Defined.

Lemma onOpen_single_word rd s w :
  contents rd <> [] ->
  wordList (scan rd) = [w] ->
  let s0 := onOpen (Some rd) s in
  words s0 = [w] /\ currentIndex s0 = 0 /\ isPlaying s0 = false
  /\ stoppedAtImage s0 = false
  /\ (hitImage (scan rd) = false -> imageStopIndex s0 = -1).
Proof.
  intros Hc Hw. cbv zeta. unfold onOpen, extractText.
  destruct (contents rd); [contradiction|].
  rewrite Hw.
  destruct (hitImage (scan rd)); cbn [andb].
  - destruct (0 <? imageStopIdx (scan rd)); repeat split; discriminate.
  - repeat split.
Qed.

(** C6.  Load a sequence of exactly one word and press play: the index
    is 0 and playback is on; the first tick of the timer turns playback
    off with the index still 0, and any later tick changes nothing; when
    no image was hit the overlay is then simply finished, not stopped at
    an image.  And pressing play at (or beyond) the last index of any
    sequence, when not stopped at an image, first puts the index back to
    0. *)
Theorem single_word_stops_after_one_tick :
  (forall rd s,
      contents rd <> [] ->
      length (wordList (scan rd)) = 1%nat ->
      let s0 := onOpen (Some rd) s in
      let s1 := togglePlay s0 in
      let s2 := tick s1 in
      currentIndex s0 = 0 /\ isPlaying s0 = false
      /\ currentIndex s1 = 0 /\ isPlaying s1 = true
      /\ timerPeriod s1 = Some (getInterval s1)
      /\ currentIndex s2 = 0 /\ isPlaying s2 = false
      /\ timerPeriod s2 = None
      /\ tick s2 = s2
      /\ (hitImage (scan rd) = false -> stoppedAtImage s2 = false))
  /\ (forall s,
         stoppedAtImage s = false ->
         len s - 1 <= currentIndex s ->
         currentIndex (togglePlay s) = 0
         /\ isPlaying (togglePlay s) = negb (isPlaying s)).
Proof.
  split.
  - intros rd s Hc Hl.
    destruct (wordList (scan rd)) as [|w [|w' ws]] eqn:Hw; try discriminate.
    destruct (onOpen_single_word rd s w Hc Hw) as (Hws & Hi & Hp & Hst & Him).
    cbv zeta. set (s0 := onOpen (Some rd) s) in *.
    assert (L0 : len s0 = 1) by (unfold len; rewrite Hws; reflexivity).
    assert (E1 : togglePlay s0 = setIsPlaying true (setCurrentIndex 0 s0)).
    { unfold togglePlay. rewrite Hst, L0, Hi, Hp. reflexivity. }
    rewrite E1. set (s1 := setIsPlaying true (setCurrentIndex 0 s0)).
    assert (L1 : len s1 = 1) by exact L0.
    assert (T : isPlaying (tick s1) = false /\ currentIndex (tick s1) = 0
                /\ len (tick s1) = 1
                /\ (imageStopIndex s0 = -1 -> stoppedAtImage (tick s1) = false)).
    { unfold tick. rewrite L1. cbn [isPlaying s1 setIsPlaying andb].
      change (0 <? 1) with true. cbv iota.
      change (currentIndex s1) with 0. change (imageStopIndex s1)
        with (imageStopIndex s0).
      destruct ((0 <? imageStopIndex s0) && (imageStopIndex s0 - 1 <=? 0))
               eqn:E.
      - repeat split; [exact L0|]. intros K. rewrite K in E. discriminate E.
      - change (1 - 1 <=? 0) with true. cbv iota.
        repeat split; [exact L0|]. intros _. exact Hst. }
    destruct T as (T1 & T2 & T3 & T4).
    split; [exact Hi|]. split; [exact Hp|].
    split; [reflexivity|]. split; [reflexivity|].
    split; [unfold timerPeriod; rewrite L1; reflexivity|].
    split; [exact T2|]. split; [exact T1|].
    split; [unfold timerPeriod; rewrite T1; reflexivity|].
    split; [unfold tick at 1; rewrite T1; reflexivity|].
    intros Hh. apply T4, Him, Hh.
  - intros s Hs Hl. unfold togglePlay. rewrite Hs.
    destruct (Z.leb_spec (len s - 1) (currentIndex s)); [|lia].
    split; reflexivity.
Qed.

Lemma single_word_stops_after_one_tick_witness :
  currentIndex (tick (togglePlay catLoaded)) = 0
  /\ isPlaying (tick (togglePlay catLoaded)) = false
  /\ currentIndex (togglePlay (setCurrentIndex 2 (onOpen (Some foxFallback) fresh)))
     = 0.
Proof.
  destruct single_word_stops_after_one_tick as [H1 H2].
  pose proof (H1 catPage fresh ltac:(discriminate) eq_refl) as K.
  cbv zeta in K. destruct K as (_ & _ & _ & _ & _ & K1 & K2 & _).
  split; [exact K1|]. split; [exact K2|].
  apply (H2 (setCurrentIndex 2 (onOpen (Some foxFallback) fresh))).
  - reflexivity.
  - vm_compute. discriminate.
Defined.

(* ================================================================= *)
(** ** The rate during playback *)

Lemma tick_keeps_wpm s : wpm (tick s) = wpm s.
Proof.
  unfold tick.
  destruct (isPlaying s && (0 <? len s)); [|reflexivity].
  destruct ((0 <? imageStopIndex s)
            && (imageStopIndex s - 1 <=? currentIndex s)); [reflexivity|].
  destruct (len s - 1 <=? currentIndex s); reflexivity.
Qed.

Lemma ticks_keep_wpm n s : wpm (Nat.iter n tick s) = wpm s.
Proof.
  induction n as [|n IH]; cbn [Nat.iter nat_rect]; [reflexivity|].
  rewrite tick_keeps_wpm. exact IH.
Qed.

(** The only commands that change the rate are the two buttons, in
    steps of 50 and never above 1000. *)
Lemma step_wpm s c :
  wpm (step s c) = wpm s
  \/ (c = DecreaseWpm /\ wpm (step s c) = Z.max 100 (wpm s - 50))
  \/ (c = IncreaseWpm /\ wpm (step s c) = Z.min 1000 (wpm s + 50)).
Proof.
  destruct c; cbn [step]; auto using tick_keeps_wpm.
  - left. unfold togglePlay. destruct (stoppedAtImage s); [reflexivity|].
    destruct (len s - 1 <=? currentIndex s); reflexivity.
Qed.

(** C7.  No number of timer ticks changes [wpm]: with training mode on
    in the settings and a long text playing at 300 wpm, after the 50
    ticks that make up ten seconds playback is still on and [wpm] is
    still 300, where the accelerator as worded gives 310. *)
Theorem ticks_never_change_wpm :
  (forall n s, wpm (Nat.iter n tick s) = wpm s)
  /\ trainingMode trainingOn = true
  /\ timerPeriod longPlaying = Some 200
  /\ isPlaying (Nat.iter 50 tick longPlaying) = true
  /\ wpm (Nat.iter 50 tick longPlaying) = 300
  /\ specTrainingStep (wpm longPlaying) = 310.
Proof.
  split; [exact ticks_keep_wpm|].
  repeat split; vm_compute; reflexivity.
Qed.

(* ================================================================= *)
(** ** The range of the index *)

(** What does hold: on a loaded sequence every command keeps the index
    inside the sequence, provided a sought position lies inside it. *)
Lemma step_keeps_index_in_range s c :
  0 <= currentIndex s < len s ->
  (forall v, c = Seek v -> 0 <= v < len s) ->
  0 <= currentIndex (step s c) < len (step s c).
Proof.
  intros Hi Hv.
  destruct c; cbn [step].
  - unfold togglePlay. destruct (stoppedAtImage s); [exact Hi|].
    destruct (len s - 1 <=? currentIndex s); cbn; unfold len in *; cbn; lia.
  - unfold tick.
    destruct (isPlaying s && (0 <? len s)); [|exact Hi].
    destruct ((0 <? imageStopIndex s)
              && (imageStopIndex s - 1 <=? currentIndex s)); [exact Hi|].
    destruct (Z.leb_spec (len s - 1) (currentIndex s)); [exact Hi|].
    unfold len in *; cbn; lia.
  - unfold skipBack, len in *; cbn; lia.
  - unfold skipForward.
    destruct (Z.ltb_spec 0 (imageStopIndex s)); unfold len in *; cbn; lia.
  - unfold restart, len in *; cbn; lia.
  - exact Hi.
  - exact Hi.
  - unfold seek, len in *; cbn. apply (Hv v eq_refl).
Qed.

(** C8.  On a loaded sequence of one word the slider ranges from 0 to 1,
    and moving it to 1 sets the index to 1, outside the sequence; on an
    overlay without words, skipping forward sets the index to -1. *)
Theorem seek_leaves_single_word_sequence :
  len catLoaded = 1
  /\ currentIndex catLoaded = 0
  /\ sliderMax catLoaded = 1
  /\ currentIndex (seek (sliderMax catLoaded) catLoaded) = 1
  /\ ~ (0 <= currentIndex (seek (sliderMax catLoaded) catLoaded)
             < len (seek (sliderMax catLoaded) catLoaded))
  /\ words fresh = []
  /\ currentIndex (skipForward fresh) = -1.
Proof.
  repeat split; try (vm_compute; reflexivity).
  vm_compute. intros [_ H]. discriminate H.
Qed.

(* ================================================================= *)
(** ** The word on display *)

Lemma orpFor_inside n : (0 < n)%nat -> (Display.orpFor n < n)%nat.
Proof.
  intros Hn. unfold Display.orpFor.
  repeat match goal with
         | |- context [(?a <=? ?b)%nat] => destruct (Nat.leb_spec a b)
         end; lia.
Qed.

Lemma firstn_nth_skipn {A} (l : list A) :
  forall i c, nth_error l i = Some c ->
              firstn i l ++ [c] ++ skipn (i + 1) l = l.
Proof.
  induction l as [|x l IH]; intros [|i] c H; cbn in *; try discriminate.
  - congruence.
  - f_equal. apply IH, H.
Qed.

(** X1.  For a word that is shown (the index points at a word of the
    list, and the word is not empty) the display is defined, its three
    parts put together give the word back, the highlighted part is
    exactly one unit, and it sits at the recognition point. *)
Theorem display_parts_give_the_word :
  forall s w,
    at_ (words s) (currentIndex s) = Some w ->
    w <> [] ->
    exists d,
      Display.getCurrentWordDisplay s = Some d
      /\ Display.before d ++ Display.highlight d ++ Display.after d = w
      /\ length (Display.highlight d) = 1%nat
      /\ length (Display.before d) = Display.orpIndex d
      /\ (Display.orpIndex d < length w)%nat.
Proof.
  intros s w Hw Hne.
  assert (Hr : 0 <= currentIndex s < len s).
  { unfold at_ in Hw. destruct (Z.ltb_spec (currentIndex s) 0);
      [discriminate|].
    assert (H' : nth_error (words s) (Z.to_nat (currentIndex s)) <> None)
      by congruence.
    apply nth_error_Some in H'. unfold len. lia. }
  unfold Display.getCurrentWordDisplay.
  destruct (Z.eqb_spec (len s) 0); [lia|].
  destruct (Z.leb_spec (len s) (currentIndex s)); [lia|].
  cbn [orb]. rewrite Hw.
  assert (Hl : (0 < length w)%nat) by (destruct w; [congruence | cbn; lia]).
  pose proof (orpFor_inside (length w) Hl) as Ho.
  destruct (nth_error w (Display.orpFor (length w))) as [c|] eqn:Hc.
  2:{ apply nth_error_None in Hc. lia. }
  eexists. split; [reflexivity|].
  unfold Display.splitAt. rewrite Hc. cbn [Display.before Display.highlight
    Display.after Display.orpIndex].
  split; [apply firstn_nth_skipn, Hc|].
  split; [reflexivity|].
  split; [apply firstn_length_le; lia | exact Ho].
Qed.

Lemma display_parts_give_the_word_witness :
  exists d,
    Display.getCurrentWordDisplay wonderfulPlaying = Some d
    /\ Display.before d ++ Display.highlight d ++ Display.after d
       = lit "wonderful"
    /\ length (Display.highlight d) = 1%nat
    /\ length (Display.before d) = Display.orpIndex d
    /\ (Display.orpIndex d < length (lit "wonderful"))%nat.
Proof.
  apply (display_parts_give_the_word wonderfulPlaying (lit "wonderful")).
  - reflexivity.
  - discriminate.
Defined.

(* ================================================================= *)
(** ** The rate and the timer period *)

Lemma getInterval_bounds s :
  100 <= wpm s <= 1000 -> 60 <= getInterval s <= 600.
Proof.
  intros [H1 H2]. unfold getInterval. split.
  - change 60 with (roundDiv 60000 1000). apply roundDiv_antitone; lia.
  - change 600 with (roundDiv 60000 100). apply roundDiv_antitone; lia.
Qed.

(** X2.  A rate between 100 and 1000 stays between 100 and 1000 under
    every command, every tick, every extraction, and opening or closing
    the overlay; the period of the timer then lies between 60 and 600
    ms. *)
Theorem wpm_stays_in_range :
  forall s,
    100 <= wpm s <= 1000 ->
    (forall c, 100 <= wpm (step s c) <= 1000
               /\ 60 <= getInterval (step s c) <= 600)
    /\ (forall r, wpm (extractText r s) = wpm s
                  /\ wpm (onOpen r s) = wpm s)
    /\ wpm (onClosed s) = wpm s.
Proof.
  intros s Hs. split; [|split].
  - intros c.
    assert (H : 100 <= wpm (step s c) <= 1000).
    { destruct (step_wpm s c) as [E|[[_ E]|[_ E]]]; rewrite E; lia. }
    split; [exact H | apply getInterval_bounds, H].
  - intros r.
    assert (E : wpm (extractText r s) = wpm s).
    { unfold extractText. destruct r as [rd|]; [|reflexivity].
      destruct (contents rd); [reflexivity|].
      destruct (wordList (scan rd)); [reflexivity|].
      destruct (hitImage (scan rd) && (0 <? imageStopIdx (scan rd)));
        reflexivity. }
    split; [exact E | exact E].
  - reflexivity.
Qed.

Lemma wpm_stays_in_range_witness :
  100 <= wpm (step helloPlaying IncreaseWpm) <= 1000
  /\ 60 <= getInterval (step helloPlaying IncreaseWpm) <= 600.
Proof.
  apply (proj1 (wpm_stays_in_range helloPlaying ltac:(cbn; lia))).
Defined.

Lemma setWpm_same s : setWpm (wpm s) s = s.
Proof. destruct s; reflexivity. Qed.

(** X3.  The two rate buttons undo each other away from the ends of the
    range: faster then slower gives the state back when the rate is
    between 100 and 950, slower then faster when it is between 150 and
    1000. *)
Theorem wpm_buttons_undo_each_other :
  forall s,
    (100 <= wpm s <= 950 -> decreaseWpm (increaseWpm s) = s)
    /\ (150 <= wpm s <= 1000 -> increaseWpm (decreaseWpm s) = s).
Proof.
  intros s. split; intros H.
  - unfold decreaseWpm, increaseWpm.
    replace (setWpm _ (setWpm _ s)) with (setWpm (wpm s) s);
      [apply setWpm_same|].
    unfold setWpm; cbn. f_equal. lia.
  - unfold decreaseWpm, increaseWpm.
    replace (setWpm _ (setWpm _ s)) with (setWpm (wpm s) s);
      [apply setWpm_same|].
    unfold setWpm; cbn. f_equal. lia.
Qed.

Lemma wpm_buttons_undo_each_other_witness :
  decreaseWpm (increaseWpm helloPlaying) = helloPlaying
  /\ increaseWpm (decreaseWpm helloPlaying) = helloPlaying.
Proof.
  split.
  - apply (proj1 (wpm_buttons_undo_each_other helloPlaying)). cbn; lia.
  - apply (proj2 (wpm_buttons_undo_each_other helloPlaying)). cbn; lia.
Defined.

(* ================================================================= *)
(** ** How playback runs *)

Lemma tick_advances s :
  isPlaying s = true -> 0 < len s -> currentIndex s < playLimit s ->
  tick s = setCurrentIndex (currentIndex s + 1) s.
Proof.
  intros Hp Hl Hi. unfold tick, playLimit in *. rewrite Hp.
  destruct (Z.ltb_spec 0 (len s)); [|lia]. cbn [andb].
  destruct (Z.ltb_spec 0 (imageStopIndex s)); cbn [andb].
  - destruct (Z.leb_spec (imageStopIndex s - 1) (currentIndex s)); [lia|].
    destruct (Z.leb_spec (len s - 1) (currentIndex s)); [lia|reflexivity].
  - destruct (Z.leb_spec (len s - 1) (currentIndex s)); [lia|reflexivity].
Qed.

(** X4.  While playback is on, [k] ticks move the index forward by
    exactly [k] and change nothing else, as long as that stays within
    the play limit (the word before the image, or the last word). *)
Theorem ticks_advance_to_limit :
  forall k s,
    isPlaying s = true ->
    0 < len s ->
    currentIndex s + Z.of_nat k <= playLimit s ->
    Nat.iter k tick s = setCurrentIndex (currentIndex s + Z.of_nat k) s.
Proof.
  induction k as [|k IH]; intros s Hp Hl Hk.
  - cbn. rewrite Z.add_0_r. destruct s; reflexivity.
  - change (Nat.iter (S k) tick s) with (tick (Nat.iter k tick s)).
    rewrite IH by (try assumption; lia).
    rewrite tick_advances.
    + unfold setCurrentIndex; cbn. f_equal. lia.
    + exact Hp.
    + exact Hl.
    + change (currentIndex s + Z.of_nat k < playLimit s). lia.
Qed.

Lemma ticks_advance_to_limit_witness :
  Nat.iter 2 tick (togglePlay (onOpen (Some foxFallback) fresh))
  = setCurrentIndex 2 (togglePlay (onOpen (Some foxFallback) fresh)).
Proof.
  apply (ticks_advance_to_limit 2 (togglePlay (onOpen (Some foxFallback) fresh)));
    vm_compute; first [reflexivity | discriminate].
Defined.

(** X5.  A tick at or beyond the play limit turns playback off without
    moving the index.  When a stop index within the list is recorded the
    overlay is then stopped at the image and hands out the reference of
    the word before the image; when none is recorded the image flag is
    left as it was. *)
Theorem tick_at_limit_stops :
  forall s,
    isPlaying s = true ->
    0 < len s ->
    playLimit s <= currentIndex s ->
    isPlaying (tick s) = false
    /\ currentIndex (tick s) = currentIndex s
    /\ timerPeriod (tick s) = None
    /\ (0 < imageStopIndex s <= len s ->
        stoppedAtImage (tick s) = true
        /\ stopNotification (tick s) = lastWordBeforeImageRef s)
    /\ (imageStopIndex s <= 0 ->
        stoppedAtImage (tick s) = stoppedAtImage s).
Proof.
  intros s Hp Hl Hi. unfold tick, playLimit in *. rewrite Hp.
  destruct (Z.ltb_spec 0 (len s)); [|lia]. cbn [andb].
  destruct (Z.ltb_spec 0 (imageStopIndex s)); cbn [andb].
  - destruct (Z.leb_spec (imageStopIndex s - 1) (currentIndex s)).
    + repeat split; intros; lia.
    + destruct (Z.leb_spec (len s - 1) (currentIndex s)); [|lia].
      repeat split; intros; lia.
  - destruct (Z.leb_spec (len s - 1) (currentIndex s)); [|lia].
    repeat split; intros; lia.
Qed.

Lemma tick_at_limit_stops_witness :
  isPlaying (tick (setCurrentIndex 2 (togglePlay (onOpen (Some foxFallback) fresh))))
  = false.
Proof.
  apply (tick_at_limit_stops
           (setCurrentIndex 2 (togglePlay (onOpen (Some foxFallback) fresh))));
    vm_compute; first [reflexivity | discriminate].
Defined.

(** X6.  Pausing and resuming keeps the place: below the last index and
    not stopped at an image, pressing play or pause twice gives the
    state back. *)
Theorem togglePlay_twice :
  forall s,
    stoppedAtImage s = false ->
    currentIndex s < len s - 1 ->
    togglePlay (togglePlay s) = s.
Proof.
  intros s Hs Hi. unfold togglePlay. rewrite Hs.
  destruct (Z.leb_spec (len s - 1) (currentIndex s)); [lia|].
  cbn [stoppedAtImage setIsPlaying]. rewrite Hs.
  change (len (setIsPlaying (negb (isPlaying s)) s)) with (len s).
  cbn [currentIndex setIsPlaying].
  destruct (Z.leb_spec (len s - 1) (currentIndex s)); [lia|].
  destruct s as [ws ci ip w ex er st isi wr lw]; cbn.
  rewrite negb_involutive. reflexivity.
Qed.

Lemma togglePlay_twice_witness :
  togglePlay (togglePlay (onOpen (Some foxFallback) fresh))
  = onOpen (Some foxFallback) fresh.
Proof.
  apply (togglePlay_twice (onOpen (Some foxFallback) fresh));
    vm_compute; reflexivity.
Defined.

(** X7.  No command but a seek takes the index out of the span from 0
    to the play limit: skipping and playing never pass the word before a
    recorded image, nor the last word. *)
Theorem commands_keep_index_within_play_limit :
  forall s c,
    (forall v, c <> Seek v) ->
    0 <= currentIndex s <= playLimit s ->
    0 <= currentIndex (step s c) <= playLimit (step s c).
Proof.
  intros s c Hc Hi.
  assert (L : forall v, playLimit (setCurrentIndex v s) = playLimit s)
    by reflexivity.
  destruct c; cbn [step].
  - unfold togglePlay. destruct (stoppedAtImage s); [exact Hi|].
    destruct (len s - 1 <=? currentIndex s).
    + change (0 <= 0 <= playLimit s). lia.
    + exact Hi.
  - unfold tick.
    destruct (isPlaying s && (0 <? len s)); [|exact Hi].
    destruct ((0 <? imageStopIndex s)
              && (imageStopIndex s - 1 <=? currentIndex s)) eqn:E1;
      [exact Hi|].
    destruct (Z.leb_spec (len s - 1) (currentIndex s)); [exact Hi|].
    rewrite L. cbn [currentIndex setCurrentIndex].
    unfold playLimit in *.
    destruct (Z.ltb_spec 0 (imageStopIndex s)); [|lia].
    cbn [andb] in E1.
    destruct (Z.leb_spec (imageStopIndex s - 1) (currentIndex s));
      [discriminate | lia].
  - unfold skipBack. rewrite L. cbn [currentIndex setCurrentIndex]. lia.
  - unfold skipForward. rewrite L. cbn [currentIndex setCurrentIndex].
    fold (playLimit s). lia.
  - change (0 <= 0 <= playLimit s). lia.
  - exact Hi.
  - exact Hi.
  - exfalso. apply (Hc v). reflexivity.
Qed.

Lemma commands_keep_index_within_play_limit_witness :
  0 <= currentIndex (step (onOpen (Some foxFallback) fresh) SkipForward)
  <= playLimit (step (onOpen (Some foxFallback) fresh) SkipForward).
Proof.
  apply (commands_keep_index_within_play_limit
           (onOpen (Some foxFallback) fresh) SkipForward).
  - discriminate.
  - vm_compute. split; discriminate.
Defined.

(* ================================================================= *)
(** ** Invariants of the two walks *)

Section WalkInvariant.

Variable P : Scan -> Prop.
Hypothesis P_push : forall n p t a, P a -> P (pushText n p t a).
Hypothesis P_stop : forall a, P a -> P (stopAtImage a).

Lemma cfiLoop_inv rg ns : forall a, P a -> P (cfiLoop rg ns a).
Proof.
  induction ns as [|[n p] ns IH]; cbn [cfiLoop]; intros a H; [exact H|].
  destruct (hitImage a); [exact H|].
  destruct (cfiHalts rg n); [apply P_stop, H|].
  destruct n; auto.
Qed.

Lemma fallbackLoop_inv pg vh ns :
  forall a, P a -> P (fallbackLoop pg vh ns a).
Proof.
  induction ns as [|[n p] ns IH]; cbn [fallbackLoop]; intros a H;
    [exact H|].
  destruct n as [i t|i t r cs|i].
  - destruct (textSkipped pg vh (prect p)); auto.
  - destruct (isImageTag t && imageStops pg vh r); auto.
  - auto.
Qed.

Lemma fallbackWalk_inv pg cs :
  forall a, P a -> P (fallbackWalk pg cs a).
Proof.
  unfold fallbackWalk.
  induction cs as [|c cs IH]; cbn [fold_left]; intros a H; [exact H|].
  apply IH. unfold fallbackContent.
  destruct (body c); auto using fallbackLoop_inv.
Qed.

Lemma scan_inv rd : P emptyScan -> P (scan rd).
Proof.
  intros E. unfold scan.
  set (a := if isPaginated rd then _ else _).
  assert (Ha : P a).
  { subst a. destruct (isPaginated rd); [|exact E].
    destruct (cfiRange rd); [|exact E].
    apply cfiLoop_inv, E. }
  destruct (wordList a); [|exact Ha].
  apply fallbackWalk_inv, Ha.
Qed.

End WalkInvariant.

(** *** The pieces of a text *)

Lemma trimStart_Forall (Q : N -> Prop) s :
  Forall Q s -> Forall Q (trimStart s).
Proof.
  induction 1 as [|c s Hc Hs IH]; cbn; [constructor|].
  destruct (isWhiteSpace c); [exact IH | constructor; assumption].
Qed.

Lemma trim_Forall (Q : N -> Prop) s : Forall Q s -> Forall Q (trim s).
Proof.
  intros H. unfold trim, trimEnd.
  apply Forall_rev, trimStart_Forall, Forall_rev, trimStart_Forall, H.
Qed.

Lemma splitAux_Forall (Q : N -> Prop) s :
  forall cur inWs,
    Forall Q s -> Forall Q cur -> Forall (Forall Q) (splitAux cur inWs s).
Proof.
  induction s as [|c s IH]; cbn [splitAux]; intros cur inWs Hs Hc.
  - constructor; [apply Forall_rev, Hc | constructor].
  - inversion Hs as [|? ? Hq Hs']; subst.
    destruct (isWhiteSpace c).
    + destruct inWs.
      * apply IH; [exact Hs' | constructor].
      * constructor; [apply Forall_rev, Hc|].
        apply IH; [exact Hs' | constructor].
    + apply IH; [exact Hs' | constructor; assumption].
Qed.

Lemma splitAux_no_white_space s :
  forall cur inWs,
    Forall (fun c => isWhiteSpace c = false) cur ->
    Forall (Forall (fun c => isWhiteSpace c = false)) (splitAux cur inWs s).
Proof.
  induction s as [|c s IH]; cbn [splitAux]; intros cur inWs Hc.
  - constructor; [apply Forall_rev, Hc | constructor].
  - destruct (isWhiteSpace c) eqn:E.
    + destruct inWs.
      * apply IH; constructor.
      * constructor; [apply Forall_rev, Hc | apply IH; constructor].
    + apply IH; constructor; assumption.
Qed.

Lemma Forall_filter_keep {A} (Q : A -> Prop) f (l : list A) :
  Forall Q l -> Forall Q (filter f l).
Proof.
  induction 1 as [|x l Hx Hl IH]; cbn; [constructor|].
  destruct (f x); [constructor; assumption | exact IH].
Qed.

(** *** Every token is well formed *)

Lemma pushWord_tokens n p a w :
  Forall (fun c => isWhiteSpace c = false) w ->
  Forall tokenOk (wordElements a) ->
  Forall tokenOk (wordElements (pushWord n p a w)).
Proof.
  intros Hw Ha. unfold pushWord.
  destruct (nonEmpty (clean w)) eqn:E; [|exact Ha].
  cbn [wordElements]. apply Forall_app. split; [exact Ha|].
  constructor; [|constructor].
  unfold tokenOk; cbn [word originalWord].
  split; [reflexivity|]. split.
  - destruct (clean w); [discriminate E | discriminate].
  - split; [exact Hw|].
    unfold clean. clear E. induction Hw as [|c w Hc Hw IH]; cbn;
      [constructor|].
    destruct (isKept c) eqn:K; [constructor; auto | exact IH].
Qed.

Lemma pushWords_tokens n p ws :
  forall a,
    Forall (Forall (fun c => isWhiteSpace c = false)) ws ->
    Forall tokenOk (wordElements a) ->
    Forall tokenOk (wordElements (fold_left (pushWord n p) ws a)).
Proof.
  induction ws as [|w ws IH]; cbn [fold_left]; intros a Hws Ha; [exact Ha|].
  inversion Hws; subst. apply IH; [assumption|].
  apply pushWord_tokens; assumption.
Qed.

Lemma pushText_tokens n p t a :
  Forall tokenOk (wordElements a) ->
  Forall tokenOk (wordElements (pushText n p t a)).
Proof.
  intros Ha. unfold pushText.
  destruct (nonEmpty (trim t)); [|exact Ha].
  apply pushWords_tokens; [|exact Ha].
  apply Forall_filter_keep, splitAux_no_white_space. constructor.
Qed.

(** X8.  Every reference an extraction produces is well formed: its
    word is the cleaned original word and is not empty, the original
    holds no white space, and the word holds only word characters and
    kept punctuation.  The same holds of every word of the word list. *)
Theorem extracted_tokens_well_formed :
  forall rd,
    Forall tokenOk (wordElements (scan rd))
    /\ Forall (fun w => w <> []
                        /\ Forall (fun c => isKept c = true
                                            /\ isWhiteSpace c = false) w)
              (wordList (scan rd)).
Proof.
  intros rd.
  assert (H : Forall tokenOk (wordElements (scan rd))).
  { apply (scan_inv (fun a => Forall tokenOk (wordElements a))).
    - intros n p t a. apply pushText_tokens.
    - intros a Ha. exact Ha.
    - constructor. }
  split; [exact H|].
  rewrite <- (scan_lockstep rd).
  induction H as [|r l Hr Hl IH]; cbn [map]; constructor; [|exact IH].
  destruct Hr as (_ & Hne & _ & Hk). split; assumption.
Qed.

(** *** The stop index lies within the words *)

Lemma pushWords_length n p ws :
  forall a, (length (wordList a)
             <= length (wordList (fold_left (pushWord n p) ws a)))%nat.
Proof.
  induction ws as [|w ws IH]; cbn [fold_left]; intros a; [lia|].
  eapply Nat.le_trans; [|apply IH].
  unfold pushWord. destruct (nonEmpty (clean w)); cbn [wordList]; [|lia].
  rewrite length_app. lia.
Qed.

Lemma pushText_stop_bound n p t a :
  imageStopIdx a <= Z.of_nat (length (wordList a)) ->
  imageStopIdx (pushText n p t a)
  <= Z.of_nat (length (wordList (pushText n p t a))).
Proof.
  intros H. unfold pushText.
  destruct (nonEmpty (trim t)); [|exact H].
  destruct (pushWords_flags n p (filter nonEmpty (splitWs (trim t))) a)
    as [_ E].
  rewrite E.
  pose proof (pushWords_length n p (filter nonEmpty (splitWs (trim t))) a).
  lia.
Qed.

Lemma scan_stop_bound rd :
  imageStopIdx (scan rd) <= Z.of_nat (length (wordList (scan rd))).
Proof.
  apply (scan_inv
           (fun a => imageStopIdx a <= Z.of_nat (length (wordList a)))).
  - intros n p t a. apply pushText_stop_bound.
  - intros a _. cbn. lia.
  - cbn. lia.
Qed.

(** X9.  Whenever an extraction records a stop index, that index is at
    most the number of words, the reference of the word before the image
    is recorded with it and carries the word at the stop index minus
    one, and the play limit is the stop index minus one. *)
Theorem recorded_stop_index_within_words :
  forall rd s,
    let st := extractText (Some rd) s in
    0 < imageStopIndex st ->
    imageStopIndex st <= len st
    /\ playLimit st = imageStopIndex st - 1
    /\ exists ref,
        lastWordBeforeImageRef st = Some ref
        /\ at_ (words st) (imageStopIndex st - 1) = Some (word ref).
Proof.
  intros rd s st. subst st.
  pose proof (scan_stop_bound rd) as B.
  pose proof (scan_lockstep rd) as L. unfold lockstep in L.
  unfold extractText.
  destruct (contents rd); [cbn; lia|].
  destruct (wordList (scan rd)) as [|w ws] eqn:Ew; [cbn; lia|].
  destruct (hitImage (scan rd) && (0 <? imageStopIdx (scan rd)));
    [|cbn; lia].
  cbn [imageStopIndex setExtracting setCurrentIndex setWords
       setImageStopIndex]. intros Hpos.
  unfold playLimit, len.
  cbn [imageStopIndex words lastWordBeforeImageRef setExtracting
       setCurrentIndex setWords setImageStopIndex
       setLastWordBeforeImageRef].
  destruct (Z.ltb_spec 0 (imageStopIdx (scan rd))); [|lia].
  split; [exact B|]. split; [lia|].
  destruct (at_ (wordElements (scan rd)) (imageStopIdx (scan rd) - 1))
    as [ref|] eqn:E.
  - exists ref. split; [reflexivity|].
    rewrite <- L. apply at_map, E.
  - exfalso. unfold at_ in E.
    destruct (Z.ltb_spec (imageStopIdx (scan rd) - 1) 0); [lia|].
    apply nth_error_None in E.
    assert (length (wordElements (scan rd)) = length (w :: ws))
      by (rewrite <- L; symmetry; apply length_map).
    lia.
Qed.

Lemma recorded_stop_index_within_words_witness :
  imageStopIndex (extractText (Some foxFallback) fresh)
  <= len (extractText (Some foxFallback) fresh).
Proof.
  apply (recorded_stop_index_within_words foxFallback fresh). reflexivity.
Defined.

(** *** Text without a word *)

Lemma silent_piece_cleans_to_nothing w :
  Forall (fun c => silentUnit c = true) w ->
  Forall (fun c => isWhiteSpace c = false) w ->
  clean w = [].
Proof.
  unfold clean. induction 1 as [|c w Hc Hw IH]; intros Hn; [reflexivity|].
  inversion Hn as [|? ? Hc' Hn']; subst. cbn [filter].
  unfold silentUnit in Hc. rewrite Hc' in Hc. cbn in Hc.
  destruct (isKept c); [discriminate Hc | apply IH, Hn'].
Qed.

Lemma pushWords_silent n p ws :
  forall a,
    Forall (Forall (fun c => silentUnit c = true)) ws ->
    Forall (Forall (fun c => isWhiteSpace c = false)) ws ->
    fold_left (pushWord n p) ws a = a.
Proof.
  induction ws as [|w ws IH]; cbn [fold_left]; intros a Hs Hn;
    [reflexivity|].
  inversion Hs; inversion Hn; subst.
  unfold pushWord at 2.
  rewrite silent_piece_cleans_to_nothing by assumption.
  cbn [nonEmpty]. apply IH; assumption.
Qed.

Lemma pushText_silent n p t a :
  Forall (fun c => silentUnit c = true) t -> pushText n p t a = a.
Proof.
  intros H. unfold pushText.
  destruct (nonEmpty (trim t)); [|reflexivity].
  apply pushWords_silent.
  - apply Forall_filter_keep, splitAux_Forall;
      [apply trim_Forall, H | constructor].
  - apply Forall_filter_keep, splitAux_no_white_space. constructor.
Qed.

Lemma forallb_silent t :
  forallb silentUnit t = true -> Forall (fun c => silentUnit c = true) t.
Proof. intros H. apply Forall_forall. apply forallb_forall, H. Qed.

Lemma partialText_silent rg n t :
  Forall (fun c => silentUnit c = true) t ->
  Forall (fun c => silentUnit c = true) (partialText rg n t).
Proof.
  intros H. unfold partialText, substringFrom, substringTo.
  assert (F : forall k l, Forall (fun c => silentUnit c = true) l ->
                          Forall (fun c => silentUnit c = true) (firstn k l)).
  { induction k as [|k IH]; intros l Hl; [constructor|].
    destruct Hl; cbn [firstn]; constructor; auto. }
  assert (S : forall k l, Forall (fun c => silentUnit c = true) l ->
                          Forall (fun c => silentUnit c = true) (skipn k l)).
  { induction k as [|k IH]; intros l Hl; [exact Hl|].
    destruct Hl; cbn [skipn]; [constructor | auto]. }
  destruct (Nat.eqb n (endContainer rg)), (Nat.eqb n (startContainer rg));
    auto.
Qed.

Lemma cfiLoop_silent rg ns :
  forall a,
    (forall x, In x ns -> silentNode (fst x) = true) ->
    wordList (cfiLoop rg ns a) = wordList a
    /\ wordElements (cfiLoop rg ns a) = wordElements a.
Proof.
  induction ns as [|[n p] ns IH]; cbn [cfiLoop]; intros a H; [auto|].
  assert (H' : forall x, In x ns -> silentNode (fst x) = true)
    by (intros x Hx; apply H; right; exact Hx).
  pose proof (H (n, p) (or_introl eq_refl)) as Hn. cbn [fst] in Hn.
  destruct (hitImage a); [auto|].
  destruct (cfiHalts rg n); [auto|].
  destruct n as [i t| |]; auto.
  rewrite pushText_silent; [auto|].
  apply partialText_silent, forallb_silent, Hn.
Qed.

Lemma fallbackLoop_silent pg vh ns :
  forall a,
    (forall x, In x ns -> silentNode (fst x) = true) ->
    wordList (fallbackLoop pg vh ns a) = wordList a
    /\ wordElements (fallbackLoop pg vh ns a) = wordElements a.
Proof.
  induction ns as [|[n p] ns IH]; cbn [fallbackLoop]; intros a H; [auto|].
  assert (H' : forall x, In x ns -> silentNode (fst x) = true)
    by (intros x Hx; apply H; right; exact Hx).
  pose proof (H (n, p) (or_introl eq_refl)) as Hn. cbn [fst] in Hn.
  destruct n as [i t|i t r cs|i].
  - destruct (textSkipped pg vh (prect p)); [auto|].
    rewrite pushText_silent; [auto | apply forallb_silent, Hn].
  - destruct (isImageTag t && imageStops pg vh r); auto.
  - auto.
Qed.

Lemma fallbackWalk_silent pg cs :
  forall a,
    (forall c b, In c cs -> body c = Some b ->
                 forall x, In x (fallbackNodes b) ->
                           silentNode (fst x) = true) ->
    wordList (fallbackWalk pg cs a) = wordList a.
Proof.
  unfold fallbackWalk.
  induction cs as [|c cs IH]; cbn [fold_left]; intros a H; [reflexivity|].
  rewrite IH by (intros c' b Hc; apply H; right; exact Hc).
  unfold fallbackContent. destruct (body c) as [b|] eqn:E; [|reflexivity].
  apply fallbackLoop_silent. apply (H c b); [left; reflexivity | exact E].
Qed.

(** X10.  When every text node the walks visit holds nothing but white
    space and units the cleaning removes, the extraction finds no word:
    it reports that there is no readable text and leaves the words on
    display, the index and the play state as they were. *)
Theorem silent_text_gives_no_words :
  forall rd s,
    contents rd <> [] ->
    (forall rg, cfiRange rd = Some rg ->
                forall x, In x (cfiNodes rg) -> silentNode (fst x) = true) ->
    (forall c b, In c (contents rd) -> body c = Some b ->
                 forall x, In x (fallbackNodes b) ->
                           silentNode (fst x) = true) ->
    wordList (scan rd) = []
    /\ error (extractText (Some rd) s)
       = Some "No readable text found on this page"%string
    /\ words (extractText (Some rd) s) = words s
    /\ currentIndex (extractText (Some rd) s) = currentIndex s
    /\ isPlaying (extractText (Some rd) s) = isPlaying s.
Proof.
  intros rd s Hc Hcfi Hfb.
  assert (E : wordList (scan rd) = []).
  { unfold scan.
    set (a := if isPaginated rd then _ else _).
    assert (Ha : wordList a = []).
    { subst a. destruct (isPaginated rd); [|reflexivity].
      destruct (cfiRange rd) as [rg|] eqn:Er; [|reflexivity].
      apply (cfiLoop_silent rg (cfiNodes rg) emptyScan (Hcfi rg eq_refl)). }
    rewrite Ha. rewrite fallbackWalk_silent by exact Hfb. exact Ha. }
  split; [exact E|].
  unfold extractText.
  destruct (contents rd); [contradiction|].
  rewrite E. repeat split.
Qed.

Lemma silent_text_gives_no_words_witness :
  error (extractText (Some silentPage) (extractText (Some foxFallback) fresh))
  = Some "No readable text found on this page"%string
  /\ words (extractText (Some silentPage)
                        (extractText (Some foxFallback) fresh))
     = [lit "The"; lit "quick"; lit "fox"].
Proof.
  destruct (silent_text_gives_no_words
              silentPage (extractText (Some foxFallback) fresh))
    as (_ & He & Hw & _).
  - discriminate.
  - discriminate.
  - intros c b [<-|[]] Hb. injection Hb as <-.
    intros x Hx. vm_compute in Hx.
    repeat (destruct Hx as [<-|Hx]; [reflexivity|]). destruct Hx.
  - split; [exact He | exact Hw].
Defined.

(** X11.  An extraction succeeds (no error is set) exactly when a
    rendition is there, it has contents, and the walks found a word.
    When it fails, the words on display, the index, the play state and
    the rate are untouched. *)
Theorem extraction_outcome :
  forall r s,
    (error (extractText r s) = None
     <-> exists rd, r = Some rd /\ contents rd <> []
                    /\ wordList (scan rd) <> [])
    /\ (error (extractText r s) <> None ->
        words (extractText r s) = words s
        /\ currentIndex (extractText r s) = currentIndex s
        /\ isPlaying (extractText r s) = isPlaying s
        /\ wpm (extractText r s) = wpm s).
Proof.
  intros r s. unfold extractText.
  destruct r as [rd|].
  2:{ split; [|intros _; repeat split].
      split; [discriminate | intros (rd & H & _); discriminate]. }
  destruct (contents rd) as [|c cs] eqn:Ec.
  { split; [|intros _; repeat split].
    split; [discriminate|]. intros (rd' & H & Hc & _).
    injection H as <-. congruence. }
  destruct (wordList (scan rd)) as [|w ws] eqn:Ew.
  { split; [|intros _; repeat split].
    split; [discriminate|]. intros (rd' & H & _ & Hw).
    injection H as <-. congruence. }
  assert (En : error
                 (setExtracting false
                    (setCurrentIndex 0
                       (setWords (w :: ws)
                          (if hitImage (scan rd) && (0 <? imageStopIdx (scan rd))
                           then setImageStopIndex (imageStopIdx (scan rd))
                                  (setLastWordBeforeImageRef
                                     (at_ (wordElements (scan rd))
                                          (imageStopIdx (scan rd) - 1))
                                     (setWordElementsRef (wordElements (scan rd))
                                        (setImageStopIndex (-1)
                                           (setStoppedAtImage false
                                              (setError None s)))))
                           else setWordElementsRef (wordElements (scan rd))
                                  (setImageStopIndex (-1)
                                     (setStoppedAtImage false
                                        (setError None s))))))) = None).
  { destruct (hitImage (scan rd) && (0 <? imageStopIdx (scan rd)));
      reflexivity. }
  split.
  - split; [|intros _; exact En].
    intros _. exists rd. rewrite Ec, Ew. repeat split; discriminate.
  - intros H. contradiction.
Qed.

(* ================================================================= *)
(** ** The stepper *)

(** X12.  With a positive step and a value between the bounds, both
    buttons keep the value between the bounds, and a button changes the
    value exactly when it is not disabled. *)
Theorem stepper_keeps_bounds :
  forall min max stp v,
    0 < stp ->
    min <= v <= max ->
    (min <= Controls.pressMinus min stp v <= max
     /\ min <= Controls.pressPlus max stp v <= max)
    /\ (Controls.pressMinus min stp v <> v
        <-> Controls.minusDisabled min v = false)
    /\ (Controls.pressPlus max stp v <> v
        <-> Controls.plusDisabled max v = false).
Proof.
  intros mn mx stp v Hs Hv.
  unfold Controls.pressMinus, Controls.pressPlus, Controls.minusDisabled,
    Controls.plusDisabled.
  destruct (Z.leb_spec v mn), (Z.leb_spec mx v);
    repeat split; intros; try lia; try congruence.
Qed.

Lemma stepper_keeps_bounds_witness :
  50 <= Controls.pressMinus 50 10 100 <= 200
  /\ 50 <= Controls.pressPlus 200 10 100 <= 200.
Proof.
  apply (proj1 (stepper_keeps_bounds 50 200 10 100 ltac:(lia) ltac:(lia))).
Defined.

(** X13.  Plus then minus gives the value back when the step fits below
    the upper bound, and minus then plus when it fits above the lower
    bound. *)
Theorem stepper_buttons_undo_each_other :
  forall min max stp v,
    0 < stp ->
    min <= v <= max ->
    (v + stp <= max ->
     Controls.pressMinus min stp (Controls.pressPlus max stp v) = v)
    /\ (min <= v - stp ->
        Controls.pressPlus max stp (Controls.pressMinus min stp v) = v).
Proof.
  intros mn mx stp v Hs Hv.
  unfold Controls.pressMinus, Controls.pressPlus, Controls.minusDisabled,
    Controls.plusDisabled.
  split; intros H.
  - destruct (Z.leb_spec mx v); [lia|].
    destruct (Z.leb_spec (Z.min mx (v + stp)) mn); lia.
  - destruct (Z.leb_spec v mn); [lia|].
    destruct (Z.leb_spec mx (Z.max mn (v - stp))); lia.
Qed.

Lemma stepper_buttons_undo_each_other_witness :
  Controls.pressMinus 50 10 (Controls.pressPlus 200 10 100) = 100.
Proof.
  apply (proj1 (stepper_buttons_undo_each_other 50 200 10 100
                  ltac:(lia) ltac:(lia))). lia.
Defined.

(* ================================================================= *)
(** ** Page turns and page counts of the reader *)

Lemma presses_while_locked es :
  forall s,
    Reader.isNavigating s = true ->
    forallb Reader.isPress es = true ->
    Reader.navRun es s = s.
Proof.
  unfold Reader.navRun.
  induction es as [|e es IH]; cbn [fold_left forallb]; intros s Hl He;
    [reflexivity|].
  apply andb_prop in He. destruct He as [He Hes].
  assert (E : Reader.navStep s e = s).
  { destruct e; try discriminate; cbn [Reader.navStep];
      unfold Reader.goNext, Reader.goPrev; rewrite Hl, andb_false_r;
      reflexivity. }
  rewrite E. apply IH; assumption.
Qed.

(** X14.  A burst of key presses turns one page: starting with a
    rendition and no page turn pending, any sequence of next and
    previous presses that is not interrupted by a relocation or by the
    timer makes exactly one call on the rendition, that of the first
    press, and leaves a page turn pending. *)
Theorem burst_of_presses_turns_one_page :
  forall s e es,
    Reader.hasRendition s = true ->
    Reader.isNavigating s = false ->
    forallb Reader.isPress (e :: es) = true ->
    Reader.calls (Reader.navRun (e :: es) s)
    = Reader.calls s ++ Reader.callOf e
    /\ length (Reader.callOf e) = 1%nat
    /\ Reader.isNavigating (Reader.navRun (e :: es) s) = true.
Proof.
  intros s e es Hr Hn He.
  cbn [forallb] in He. apply andb_prop in He. destruct He as [He Hes].
  change (Reader.navRun (e :: es) s)
    with (Reader.navRun es (Reader.navStep s e)).
  assert (L : Reader.isNavigating (Reader.navStep s e) = true
              /\ Reader.calls (Reader.navStep s e)
                 = Reader.calls s ++ Reader.callOf e
              /\ length (Reader.callOf e) = 1%nat).
  { destruct e; try discriminate; cbn [Reader.navStep Reader.callOf];
      unfold Reader.goNext, Reader.goPrev; rewrite Hr, Hn;
      repeat split. }
  destruct L as (L1 & L2 & L3).
  rewrite (presses_while_locked es _ L1 Hes).
  repeat split; assumption.
Qed.

Lemma burst_of_presses_turns_one_page_witness :
  Reader.calls
    (Reader.navRun [Reader.PressNext; Reader.PressNext; Reader.PressPrev]
                   navIdle)
  = [Reader.CallNext].
Proof.
  apply (burst_of_presses_turns_one_page
           navIdle Reader.PressNext [Reader.PressNext; Reader.PressPrev]);
    reflexivity.
Defined.

(** X15.  For font sizes from 50 to 200 per cent the number of
    characters per page lies between 512 and 2048 and never grows when
    the font size grows. *)
Theorem charsPerPage_bounds :
  forall f1 f2,
    50 <= f1 -> f1 <= f2 -> f2 <= 200 ->
    Reader.charsPerPage f2 <= Reader.charsPerPage f1
    /\ 512 <= Reader.charsPerPage f2
    /\ Reader.charsPerPage f1 <= 2048.
Proof.
  intros f1 f2 H1 H12 H2. unfold Reader.charsPerPage.
  split; [apply roundDiv_antitone; lia|]. split.
  - change 512 with (roundDiv 102400 200). apply roundDiv_antitone; lia.
  - change 2048 with (roundDiv 102400 50). apply roundDiv_antitone; lia.
Qed.

Lemma charsPerPage_bounds_witness :
  Reader.charsPerPage 110 <= Reader.charsPerPage 100.
Proof.
  apply (charsPerPage_bounds 100 110); lia.
Defined.

(* ================================================================= *)
(** ** The book store *)

Lemma get_putRec_same b l :
  find (fun x => Nat.eqb (Db.id x) (Db.id b)) (Db.putRec b l) = Some b.
Proof.
  induction l as [|x l IH]; cbn [Db.putRec find].
  - rewrite Nat.eqb_refl. reflexivity.
  - destruct (Nat.eqb_spec (Db.id b) (Db.id x)) as [E|E].
    + cbn [find]. rewrite Nat.eqb_refl. reflexivity.
    + destruct (Nat.ltb (Db.id b) (Db.id x)); cbn [find].
      * rewrite Nat.eqb_refl. reflexivity.
      * destruct (Nat.eqb_spec (Db.id x) (Db.id b)); [congruence | exact IH].
Qed.

Lemma get_putRec_other b l j :
  j <> Db.id b ->
  find (fun x => Nat.eqb (Db.id x) j) (Db.putRec b l)
  = find (fun x => Nat.eqb (Db.id x) j) l.
Proof.
  intros Hj.
  assert (Hb : Nat.eqb (Db.id b) j = false)
    by (apply Nat.eqb_neq; congruence).
  induction l as [|x l IH]; cbn [Db.putRec find].
  - rewrite Hb. reflexivity.
  - destruct (Nat.eqb_spec (Db.id b) (Db.id x)) as [E|E].
    + cbn [find]. rewrite Hb. rewrite <- E, Hb. reflexivity.
    + destruct (Nat.ltb (Db.id b) (Db.id x)); cbn [find].
      * rewrite Hb. reflexivity.
      * rewrite IH. reflexivity.
Qed.

Lemma putRec_keeps_keys b l :
  StronglySorted Nat.lt (map Db.id l) ->
  In (Db.id b) (map Db.id l) ->
  map Db.id (Db.putRec b l) = map Db.id l.
Proof.
  induction l as [|x l IH]; cbn [map Db.putRec]; intros Hs Hin;
    [destruct Hin|].
  inversion Hs as [|? ? Hs' Hx]; subst.
  destruct (Nat.eqb_spec (Db.id b) (Db.id x)) as [E|E].
  - cbn [map]. rewrite E. reflexivity.
  - destruct Hin as [Hin|Hin]; [congruence|].
    destruct (Nat.ltb_spec (Db.id b) (Db.id x)) as [Hlt|Hge].
    + rewrite Forall_forall in Hx. specialize (Hx _ Hin). lia.
    + cbn [map]. rewrite IH; auto.
Qed.

Lemma putRec_at_end b l :
  Forall (fun k => (k < Db.id b)%nat) (map Db.id l) ->
  Db.putRec b l = l ++ [b].
Proof.
  induction l as [|x l IH]; cbn [map Db.putRec app]; intros H;
    [reflexivity|].
  inversion H as [|? ? Hx Hl]; subst.
  destruct (Nat.eqb_spec (Db.id b) (Db.id x)); [lia|].
  destruct (Nat.ltb_spec (Db.id b) (Db.id x)); [lia|].
  rewrite IH by exact Hl. reflexivity.
Qed.

Lemma sorted_snoc l k :
  StronglySorted Nat.lt l ->
  Forall (fun j => (j < k)%nat) l ->
  StronglySorted Nat.lt (l ++ [k]).
Proof.
  induction 1 as [|x l Hs IH Hx]; cbn [app]; intros Hk.
  - constructor; constructor.
  - inversion Hk; subst. constructor; [auto|].
    apply Forall_app. split; [exact Hx | constructor; [assumption|constructor]].
Qed.

Lemma sorted_filter (f : Db.Book -> bool) l :
  StronglySorted Nat.lt (map Db.id l) ->
  StronglySorted Nat.lt (map Db.id (filter f l)).
Proof.
  induction l as [|x l IH]; cbn [map filter]; intros Hs; [exact Hs|].
  inversion Hs as [|? ? Hs' Hx]; subst.
  destruct (f x); cbn [map]; [|auto].
  constructor; [auto|].
  rewrite Forall_forall in *. intros k Hk. apply Hx.
  apply in_map_iff in Hk. destruct Hk as (y & <- & Hy).
  apply filter_In in Hy. apply in_map, Hy.
Qed.

Lemma get_in_keys i st b :
  Db.get i st = Some b -> Db.id b = i /\ In i (map Db.id (Db.records st)).
Proof.
  unfold Db.get. intros H. apply find_some in H. destruct H as [Hin He].
  apply Nat.eqb_eq in He. split; [exact He|].
  rewrite <- He. apply in_map, Hin.
Qed.

Lemma get_none_below st :
  storeOk st -> Db.get (Db.nextId st) st = None.
Proof.
  intros [_ Hb]. unfold Db.get.
  destruct (find _ (Db.records st)) as [b|] eqn:E; [|reflexivity].
  destruct (get_in_keys _ _ _ E) as [_ Hin].
  rewrite Forall_forall in Hb. specialize (Hb _ Hin). lia.
Qed.

Lemma storeOk_update i loc p st :
  storeOk st -> storeOk (Db.updateBookProgress i loc p st).
Proof.
  intros [Hs Hb]. unfold Db.updateBookProgress.
  destruct (Db.get i st) as [b|] eqn:E; [|split; assumption].
  destruct (get_in_keys _ _ _ E) as [Hi Hin].
  unfold storeOk, Db.put. cbn [Db.records Db.nextId].
  rewrite putRec_keeps_keys; cbn [Db.id]; [|exact Hs|rewrite Hi; exact Hin].
  split; [exact Hs|].
  rewrite Forall_forall in *. intros k Hk. specialize (Hb k Hk). lia.
Qed.

Lemma storeOk_delete i st : storeOk st -> storeOk (Db.deleteBook i st).
Proof.
  intros [Hs Hb]. unfold storeOk, Db.deleteBook, Db.delete.
  cbn [Db.records Db.nextId]. split; [apply sorted_filter, Hs|].
  rewrite Forall_forall in *. intros k Hk. apply Hb.
  apply in_map_iff in Hk. destruct Hk as (y & <- & Hy).
  apply filter_In in Hy. apply in_map, Hy.
Qed.

Lemma addBook_spec d now st :
  storeOk st ->
  let b := Db.mkBook (Db.nextId st) (Db.dTitle d) (Db.dAuthor d) (Db.dCover d)
                     (Db.dData d) (Db.dSeries d) (Db.dProgress d)
                     (Db.dLastRead d) now in
  Db.addBook d now st
  = Some (Db.mkStore (Db.records st ++ [b]) (S (Db.nextId st)), Db.nextId st).
Proof.
  intros Hok b. unfold Db.addBook.
  rewrite (get_none_below st Hok). fold b. unfold Db.put.
  destruct Hok as [_ Hb].
  rewrite putRec_at_end by exact Hb.
  cbn [Db.id b]. do 3 f_equal. lia.
Qed.

Lemma storeOk_add d now st st' k :
  storeOk st -> Db.addBook d now st = Some (st', k) -> storeOk st'.
Proof.
  intros Hok H. rewrite (addBook_spec d now st Hok) in H.
  injection H as <- <-. destruct Hok as [Hs Hb].
  unfold storeOk. cbn [Db.records Db.nextId].
  rewrite map_app. cbn [map Db.id]. split.
  - apply sorted_snoc; assumption.
  - apply Forall_app. split.
    + rewrite Forall_forall in *. intros j Hj. specialize (Hb j Hj). lia.
    + constructor; [lia | constructor].
Qed.

Lemma reachableStore_ok st : Db.reachableStore st -> storeOk st.
Proof.
  induction 1 as [|d now st st' k _ IH H| i loc p st _ IH | i st _ IH].
  - split; constructor.
  - eapply storeOk_add; eassumption.
  - apply storeOk_update, IH.
  - apply storeOk_delete, IH.
Qed.

(** X16.  On a store the functions of [db.js] can produce, adding a book
    never fails; the key it returns is the generator's number and was
    free; the book is found under that key with the given fields and
    the date of the clock; every other key gives what it gave before. *)
Theorem addBook_then_getBook :
  forall st d now,
    Db.reachableStore st ->
    exists st',
      Db.addBook d now st = Some (st', Db.nextId st)
      /\ Db.getBook (Db.nextId st) st = None
      /\ Db.getBook (Db.nextId st) st'
         = Some (Db.mkBook (Db.nextId st) (Db.dTitle d) (Db.dAuthor d)
                           (Db.dCover d) (Db.dData d) (Db.dSeries d)
                           (Db.dProgress d) (Db.dLastRead d) now)
      /\ (forall j, j <> Db.nextId st -> Db.getBook j st' = Db.getBook j st)
      /\ Db.nextId st' = S (Db.nextId st).
Proof.
  intros st d now Hr. pose proof (reachableStore_ok st Hr) as Hok.
  pose proof (get_none_below st Hok) as Hn.
  unfold Db.addBook. rewrite Hn.
  eexists. split; [reflexivity|]. split; [exact Hn|].
  unfold Db.getBook, Db.get, Db.put. cbn [Db.records Db.nextId].
  split; [|split].
  - apply (get_putRec_same
             (Db.mkBook (Db.nextId st) (Db.dTitle d) (Db.dAuthor d)
                        (Db.dCover d) (Db.dData d) (Db.dSeries d)
                        (Db.dProgress d) (Db.dLastRead d) now)).
  - intros j Hj. apply get_putRec_other. cbn [Db.id]. exact Hj.
  - cbn [Db.id]. lia.
Qed.

Lemma twoBooks_reachable : Db.reachableStore twoBooks.
Proof.
  apply (Db.store_add otherBook 20
           (Db.mkStore
              [Db.mkBook 1 (lit "Dune") (lit "Herbert") None [80; 75]%N
                         (lit "Uncategorized") (QArith_base.Qmake 0 1)
                         None 10] 2) twoBooks 2%nat);
    [|reflexivity].
  apply (Db.store_add someBook 10 Db.emptyStore _ 1%nat);
    [apply Db.store_fresh | reflexivity].
Qed.

Lemma addBook_then_getBook_witness :
  exists st',
    Db.addBook someBook 30 twoBooks = Some (st', 3%nat)
    /\ Db.getBook 1 st' = Db.getBook 1 twoBooks.
Proof.
  pose proof twoBooks_reachable as R.
  destruct (addBook_then_getBook twoBooks someBook 30 R)
    as (st' & Ha & _ & _ & Ho & _).
  exists st'. split; [exact Ha|]. apply Ho. discriminate.
Defined.

(** X17.  [updateBookProgress] touches one book at most: for a key
    without record the store is returned as it is; for a key with a
    record that record gets the new location and progress and keeps all
    other fields; every other key gives what it gave before, and the
    list of keys and the key generator do not change. *)
Theorem updateBookProgress_touches_one_book :
  forall st i loc p,
    Db.reachableStore st ->
    let st' := Db.updateBookProgress i loc p st in
    (Db.getBook i st = None -> st' = st)
    /\ (forall b, Db.getBook i st = Some b ->
                  Db.getBook i st'
                  = Some (Db.mkBook (Db.id b) (Db.title b) (Db.author b)
                                    (Db.cover b) (Db.data b) (Db.series b)
                                    p (Some loc) (Db.addedAt b)))
    /\ (forall j, j <> i -> Db.getBook j st' = Db.getBook j st)
    /\ map Db.id (Db.records st') = map Db.id (Db.records st)
    /\ Db.nextId st' = Db.nextId st.
Proof.
  intros st i loc p Hr st'. subst st'.
  destruct (reachableStore_ok st Hr) as [Hs Hb].
  unfold Db.getBook, Db.updateBookProgress.
  destruct (Db.get i st) as [b|] eqn:E.
  2:{ repeat split; intros; try reflexivity; discriminate. }
  destruct (get_in_keys _ _ _ E) as [Hi Hin].
  split; [discriminate|]. split; [|split; [|split]].
  - intros b' Hb'. injection Hb' as <-.
    unfold Db.get, Db.put. cbn [Db.records]. rewrite <- Hi.
    apply (get_putRec_same
             (Db.mkBook (Db.id b) (Db.title b) (Db.author b) (Db.cover b)
                        (Db.data b) (Db.series b) p (Some loc)
                        (Db.addedAt b))).
  - intros j Hj. unfold Db.get, Db.put. cbn [Db.records].
    apply get_putRec_other. cbn [Db.id]. congruence.
  - unfold Db.put. cbn [Db.records].
    apply putRec_keeps_keys; cbn [Db.id]; [exact Hs | rewrite Hi; exact Hin].
  - unfold Db.put. cbn [Db.nextId Db.id].
    rewrite Forall_forall in Hb. specialize (Hb _ Hin). lia.
Qed.

Lemma updateBookProgress_touches_one_book_witness :
  Db.updateBookProgress 7 (lit "epubcfi(/6/4)") (QArith_base.Qmake 1 2)
                        twoBooks
  = twoBooks.
Proof.
  apply (proj1 (updateBookProgress_touches_one_book
                  twoBooks 7 (lit "epubcfi(/6/4)") (QArith_base.Qmake 1 2)
                  twoBooks_reachable)).
  reflexivity.
Defined.

Lemma get_delete i st j :
  Db.getBook j (Db.deleteBook i st)
  = if Nat.eqb j i then None else Db.getBook j st.
Proof.
  unfold Db.getBook, Db.get, Db.deleteBook, Db.delete. cbn [Db.records].
  generalize (Db.records st) as l.
  induction l as [|x l IH]; cbn [filter find].
  - destruct (Nat.eqb j i); reflexivity.
  - destruct (Nat.eqb_spec (Db.id x) i) as [E|E]; cbn [negb].
    + rewrite IH. destruct (Nat.eqb_spec j i) as [E'|E']; [reflexivity|].
      destruct (Nat.eqb_spec (Db.id x) j); [congruence | reflexivity].
    + cbn [find]. destruct (Nat.eqb_spec (Db.id x) j) as [E'|E'].
      * destruct (Nat.eqb_spec j i); [congruence | reflexivity].
      * exact IH.
Qed.

(** X18.  A deleted book is gone, the other books stay, and its key is
    never handed out again: after deleting a stored book, the next book
    added gets a key that is greater than the deleted one. *)
Theorem deleted_key_is_not_reused :
  forall st i b d now,
    Db.reachableStore st ->
    Db.getBook i st = Some b ->
    Db.getBook i (Db.deleteBook i st) = None
    /\ (forall j, j <> i ->
                  Db.getBook j (Db.deleteBook i st) = Db.getBook j st)
    /\ exists st' k,
        Db.addBook d now (Db.deleteBook i st) = Some (st', k)
        /\ (i < k)%nat.
Proof.
  intros st i b d now Hr Hg.
  destruct (reachableStore_ok st Hr) as [Hs Hb].
  destruct (get_in_keys _ _ _ Hg) as [_ Hin].
  pose proof (get_delete i st) as F.
  split; [rewrite F, Nat.eqb_refl; reflexivity|]. split.
  - intros j Hj. rewrite F.
    destruct (Nat.eqb_spec j i); [contradiction | reflexivity].
  - pose proof (storeOk_delete i st (conj Hs Hb)) as Hok.
    rewrite (addBook_spec d now _ Hok). cbv zeta.
    eexists. eexists. split; [reflexivity|].
    cbn [Db.deleteBook Db.delete Db.nextId].
    rewrite Forall_forall in Hb. apply (Hb _ Hin).
Qed.

Lemma deleted_key_is_not_reused_witness :
  Db.getBook 2 (Db.deleteBook 2 twoBooks) = None.
Proof.
  apply (deleted_key_is_not_reused
           twoBooks 2
           (Db.mkBook 2 (lit "Emma") (lit "Austen") None [80; 75]%N
                      (lit "Uncategorized") (QArith_base.Qmake 0 1) None 20)
           someBook 30 twoBooks_reachable).
  reflexivity.
Defined.

(* ================================================================= *)
(** ** The list on the library page *)

Lemma insertByDate_Forall (Q : Db.Book -> Prop) b l :
  Q b -> Forall Q l -> Forall Q (Db.insertByDate b l).
Proof.
  intros Hb. induction 1 as [|x l Hx Hl IH]; cbn [Db.insertByDate].
  - constructor; [exact Hb | constructor].
  - destruct (Db.addedAt b <=? Db.addedAt x);
      constructor; auto.
Qed.

Lemma insertByDate_sorted b l :
  inDateOrder l -> inDateOrder (Db.insertByDate b l).
Proof.
  unfold inDateOrder.
  induction 1 as [|x l Hs IH Hx]; cbn [Db.insertByDate].
  - constructor; constructor.
  - destruct (Z.leb_spec (Db.addedAt b) (Db.addedAt x)).
    + constructor; [constructor; assumption|].
      constructor; [assumption|].
      rewrite Forall_forall in *. intros y Hy. specialize (Hx y Hy). lia.
    + constructor; [exact IH|].
      apply insertByDate_Forall; [lia | exact Hx].
Qed.

Lemma sortByDate_sorted l : inDateOrder (Db.sortByDate l).
Proof.
  induction l as [|b l IH]; cbn [Db.sortByDate fold_right].
  - constructor.
  - apply insertByDate_sorted, IH.
Qed.

Lemma insertByDate_front b l :
  Forall (fun y => Db.addedAt b <= Db.addedAt y) l ->
  Db.insertByDate b l = b :: l.
Proof.
  destruct 1 as [|x l Hx Hl]; cbn [Db.insertByDate]; [reflexivity|].
  destruct (Z.leb_spec (Db.addedAt b) (Db.addedAt x)); [reflexivity | lia].
Qed.

Lemma filter_insertByDate f b l :
  inDateOrder l ->
  filter f (Db.insertByDate b l)
  = if f b then Db.insertByDate b (filter f l) else filter f l.
Proof.
  unfold inDateOrder.
  induction 1 as [|x l Hs IH Hx]; cbn [Db.insertByDate].
  - cbn [filter]. destruct (f b); reflexivity.
  - destruct (Z.leb_spec (Db.addedAt b) (Db.addedAt x)) as [Hle|Hgt].
    + cbn [filter]. destruct (f b); [|reflexivity].
      symmetry. apply (insertByDate_front b (filter f (x :: l))).
      apply Forall_filter_keep. constructor; [exact Hle|].
      rewrite Forall_forall in *. intros y Hy. specialize (Hx y Hy). lia.
    + cbn [filter]. rewrite IH.
      destruct (f x), (f b); cbn [Db.insertByDate]; try reflexivity.
      destruct (Z.leb_spec (Db.addedAt b) (Db.addedAt x)); [lia|reflexivity].
Qed.

Lemma filter_sortByDate f l :
  filter f (Db.sortByDate l) = Db.sortByDate (filter f l).
Proof.
  induction l as [|b l IH]; [reflexivity|].
  cbn [Db.sortByDate fold_right filter].
  change (fold_right Db.insertByDate [] l) with (Db.sortByDate l).
  rewrite filter_insertByDate by apply sortByDate_sorted.
  rewrite IH. destruct (f b); reflexivity.
Qed.

(** X19.  Deleting on the library page keeps the page in step with the
    store: when the list on the page is what [loadBooks] would show,
    then after [handleDelete] the filtered list is again what
    [loadBooks] would show for the store after the deletion. *)
Theorem handleDelete_keeps_page_in_step :
  forall st v i,
    Library.books v = Library.books (Library.loadBooks st v) ->
    let '(st', v') := Library.handleDelete i st v in
    Library.books v' = Library.books (Library.loadBooks st' v')
    /\ Library.deleteConfirm v' = None.
Proof.
  intros st v i Hv. cbn [Library.handleDelete Library.loadBooks
    Library.books Library.deleteConfirm] in *.
  split; [|reflexivity].
  rewrite Hv, filter_rev. f_equal.
  unfold Db.getBooks, Db.deleteBook, Db.delete. cbn [Db.records].
  apply filter_sortByDate.
Qed.

Lemma handleDelete_keeps_page_in_step_witness :
  Library.books
    (snd (Library.handleDelete 1 twoBooks
            (Library.loadBooks twoBooks (Library.mkView [] (Some 1%nat)))))
  = rev (Db.getBooks (Db.deleteBook 1 twoBooks)).
Proof.
  exact (proj1 (handleDelete_keeps_page_in_step
                  twoBooks
                  (Library.loadBooks twoBooks (Library.mkView [] (Some 1%nat)))
                  1%nat eq_refl)).
Defined.

(* ================================================================= *)
(** ** The overlay inside the reader page *)

Lemma tick_reaching_image s :
  isPlaying s = true ->
  0 < imageStopIndex s <= len s ->
  playLimit s <= currentIndex s ->
  tick s = setStoppedAtImage true (setIsPlaying false s).
Proof.
  intros Hp Hi Hl. unfold tick, playLimit in *. rewrite Hp.
  destruct (Z.ltb_spec 0 (len s)); [|lia].
  destruct (Z.ltb_spec 0 (imageStopIndex s)); [|lia]. cbn [andb].
  destruct (Z.leb_spec (imageStopIndex s - 1) (currentIndex s));
    [reflexivity | lia].
Qed.

(** X20.  When the tick that reaches a recorded image fires on a page
    with a rendition, and the reference of the word before the image is
    there, the reader closes the overlay, shows its own controls again
    and asks the rendition for the next page once, whether or not a page
    turn is pending. *)
Theorem image_stop_closes_overlay_and_turns_page :
  forall pg ref,
    Reader.hasRendition (App.nav pg) = true ->
    isPlaying (App.overlay pg) = true ->
    0 < imageStopIndex (App.overlay pg) <= len (App.overlay pg) ->
    playLimit (App.overlay pg) <= currentIndex (App.overlay pg) ->
    lastWordBeforeImageRef (App.overlay pg) = Some ref ->
    let pg' := App.tickPage pg in
    App.showRSVP (App.ui pg') = false
    /\ App.showUI (App.ui pg') = true
    /\ Reader.calls (App.nav pg')
       = Reader.calls (App.nav pg) ++ [Reader.CallNext]
    /\ isPlaying (App.overlay pg') = false
    /\ currentIndex (App.overlay pg') = currentIndex (App.overlay pg).
Proof.
  intros pg ref Hr Hp Hi Hl Href pg'. subst pg'.
  unfold App.tickPage, App.stopEffect. cbn [App.overlay].
  rewrite (tick_reaching_image (App.overlay pg) Hp Hi Hl).
  unfold stopNotification.
  cbn [stoppedAtImage lastWordBeforeImageRef setStoppedAtImage setIsPlaying].
  rewrite Href. unfold App.handleRSVPStopAtImage.
  cbn [App.nav App.overlay App.ui]. rewrite Hr. cbn [negb].
  repeat split.
Qed.

Lemma image_stop_closes_overlay_and_turns_page_witness :
  App.showRSVP
    (App.ui (App.tickPage
               (App.mkPage
                  (setCurrentIndex 2
                     (togglePlay (onOpen (Some foxFallback) fresh)))
                  (App.mkUi true false) navIdle)))
  = false.
Proof.
  apply (image_stop_closes_overlay_and_turns_page
           (App.mkPage
              (setCurrentIndex 2 (togglePlay (onOpen (Some foxFallback) fresh)))
              (App.mkUi true false) navIdle)
           (mkWordRef 2 1 (lit "fox") (lit "fox")));
    vm_compute;
    first [reflexivity | discriminate | split; [reflexivity | discriminate]].
Defined.

(* ================================================================= *)
(** ** Extracting twice *)

(** X21.  Extracting the same page a second time changes nothing. *)
Theorem extractText_idempotent :
  forall r s, extractText r (extractText r s) = extractText r s.
Proof.
  intros r s. unfold extractText.
  destruct r as [rd|]; [|destruct s; reflexivity].
  destruct (contents rd); [destruct s; reflexivity|].
  destruct (wordList (scan rd)); [destruct s; reflexivity|].
  destruct (hitImage (scan rd) && (0 <? imageStopIdx (scan rd)));
    destruct s; reflexivity.
Qed.

(* ================================================================= *)
(** ** One document: the image ends the word list *)

Lemma cfiLoop_stop_is_length rg ns :
  forall a,
    hitImage a = false ->
    hitImage (cfiLoop rg ns a) = true ->
    imageStopIdx (cfiLoop rg ns a)
    = Z.of_nat (length (wordList (cfiLoop rg ns a))).
Proof.
  induction ns as [|[n p] ns IH]; cbn [cfiLoop]; intros a Ha H.
  - congruence.
  - rewrite Ha in *. destruct (cfiHalts rg n); [reflexivity|].
    destruct n as [i t| |]; apply IH; auto.
    rewrite pushText_hitImage. exact Ha.
Qed.

Lemma fallbackLoop_stop_is_length pg vh ns :
  forall a,
    hitImage a = false ->
    hitImage (fallbackLoop pg vh ns a) = true ->
    imageStopIdx (fallbackLoop pg vh ns a)
    = Z.of_nat (length (wordList (fallbackLoop pg vh ns a))).
Proof.
  induction ns as [|[n p] ns IH]; cbn [fallbackLoop]; intros a Ha H.
  - congruence.
  - destruct n as [i t|i t r cs|i].
    + destruct (textSkipped pg vh (prect p)); apply IH; auto.
      rewrite pushText_hitImage. exact Ha.
    + destruct (isImageTag t && imageStops pg vh r);
        [reflexivity | apply IH; auto].
    + apply IH; auto.
Qed.

(** X22.  When at most one document is rendered and the walk over the
    CFI range, if there is one, did not hit an image before its first
    word, an image that was hit ends the word list: the stop position is
    the number of words found. *)
Theorem single_document_image_ends_word_list :
  forall rd,
    (length (contents rd) <= 1)%nat ->
    (forall rg, isPaginated rd = true -> cfiRange rd = Some rg ->
                hitImage (cfiWalk rg emptyScan) = true ->
                wordList (cfiWalk rg emptyScan) <> []) ->
    hitImage (scan rd) = true ->
    imageStopIdx (scan rd) = Z.of_nat (length (wordList (scan rd))).
Proof.
  intros rd Hlen Hcfi.
  assert (One : forall pg a,
             hitImage a = false ->
             hitImage (fallbackWalk pg (contents rd) a) = true ->
             imageStopIdx (fallbackWalk pg (contents rd) a)
             = Z.of_nat (length (wordList (fallbackWalk pg (contents rd) a)))).
  { intros pg a Ha. unfold fallbackWalk.
    destruct (contents rd) as [|c [|c' cs]]; cbn [fold_left].
    - congruence.
    - unfold fallbackContent. destruct (body c); [|congruence].
      apply fallbackLoop_stop_is_length, Ha.
    - cbn in Hlen. lia. }
  unfold scan.
  destruct (isPaginated rd) eqn:Hp;
    [|cbn [wordList emptyScan]; apply One; reflexivity].
  destruct (cfiRange rd) as [rg|] eqn:Hc;
    [|cbn [wordList emptyScan]; apply One; reflexivity].
  specialize (Hcfi rg eq_refl eq_refl).
  destruct (wordList (cfiWalk rg emptyScan)) as [|w ws] eqn:E.
  - apply One.
    destruct (hitImage (cfiWalk rg emptyScan)); [|reflexivity].
    exfalso. apply Hcfi; reflexivity.
  - unfold cfiWalk. apply cfiLoop_stop_is_length. reflexivity.
Qed.

Lemma single_document_image_ends_word_list_witness :
  imageStopIdx (scan foxCfi)
  = Z.of_nat (length (wordList (scan foxCfi))).
Proof.
  apply (single_document_image_ends_word_list foxCfi).
  - cbn. lia.
  - intros rg _ Hr _. injection Hr as <-. vm_compute. discriminate.
  - reflexivity.
Defined.

Lemma extracted_tokens_well_formed_witness :
  Forall tokenOk (wordElements (scan foxFallback)).
Proof.
  exact (proj1 (extracted_tokens_well_formed foxFallback)).
Defined.

Lemma extraction_outcome_witness :
  words (extractText (Some silentPage) catLoaded) = words catLoaded
  /\ currentIndex (extractText (Some silentPage) catLoaded)
     = currentIndex catLoaded
  /\ isPlaying (extractText (Some silentPage) catLoaded) = isPlaying catLoaded
  /\ wpm (extractText (Some silentPage) catLoaded) = wpm catLoaded.
Proof.
  apply (proj2 (extraction_outcome (Some silentPage) catLoaded)).
  vm_compute. discriminate.
Defined.
